(** * Command execution engine of odo: parallel composite commands,
      the concurrent task runner they fan out to, and the registry
      listing that uses the same runner.

    Sources embedded here:
    - [pkg/devfile/adapters/common] [parallelCompositeCommand]
      (its [Execute] and [UnExecute]);
    - [pkg/registry] [GetDevfileRegistries], [ListDevfileStacks],
      [convertURL], [getRegistryStacks] and [createRegistryDevfiles];
    - [pkg/odo/cli/dev] [portPairsFromContainerEndpoints] and
      [randomPortPairsFromContainerEndpoints].

    The task runner of [pkg/util], the leaf command and the sequential
    composite command are not among the sources; they are modelled from
    the spec and marked as such.

    Go values are modelled as follows.  An [error] is a value with a
    message and an optional wrapped cause.  A Go statement sequence that
    touches the outside world is a function on an explicit state.  A
    call that can panic returns a [Result].  The Go scheduler is an
    explicit argument: a list of numbers from which the order in which
    the launched units run is drawn; every order can be drawn
    ([SchedulerFacts.order_complete]) and every theorem about concurrent
    code quantifies over all such lists.  A launched unit runs to
    completion before the next one starts: interleavings inside a unit
    are not modelled.  When a unit fails, the runner returns while other
    units are still running; a call that fans out then has two states,
    the one at the moment it returns and the one reached when the units
    still running have finished, and both are defined.

    The file has two parts: the definitions, then the facts proved about
    them, the numbered properties last in each group. *)

From stdpp Require Import base list strings gmap pretty sorting.

(** ** Go errors *)

Module GoError.

(** [errors.New] builds an [errorString]; [fmt.Errorf] with the verb
    [%w] builds a [wrapError] that stores the formatted message and the
    operand of [%w]. *)
Inductive error : Type :=
| errorString (s : string)
| wrapError (msg : string) (err : error).

(** The method [Error()]. *)
Definition Error (e : error) : string :=
  match e with
  | errorString s => s
  | wrapError msg _ => msg
  end.

(** [errors.Unwrap]. *)
Definition Unwrap (e : error) : option error :=
  match e with
  | errorString _ => None
  | wrapError _ err => Some err
  end.

(** [fmt.Errorf(prefix + "%w", err)] for a format made of a literal
    prefix followed by one [%w]. *)
Definition Errorf_w (prefix : string) (err : error) : error :=
  wrapError (prefix +:+ Error err) err.

(** [fmt.Sprintf] with the verb [%v] applied to an error prints its
    message. *)
Definition Sprint_v (err : error) : string := Error err.

End GoError.

Export GoError.

Global Instance error_eq_dec : EqDecision error.
Proof. solve_decision. Defined.

(** ** Outcome of a call that may panic *)

Inductive Result (A : Type) : Type :=
| Normal (a : A)
| Panic (msg : string).
Arguments Normal {A} a.
Arguments Panic {A} msg.

Global Instance Result_ret : MRet Result := @Normal.
Global Instance Result_bind : MBind Result := λ A B k r,
  match r with
  | Normal a => k a
  | Panic msg => Panic msg
  end.

(** ** The scheduler *)

Module Scheduler.

(** [pick_order] draws a launch order from [pending]: at each
    step the next number of [choices] (0 when it is exhausted), reduced
    modulo the number of units still pending, selects the unit that runs
    next. *)
Fixpoint pick_order (fuel : nat) (choices : list nat) (pending : list nat)
  : list nat :=
  match fuel with
  | 0 => []
  | S fuel' =>
      let k := hd 0 choices `mod` length pending in
      match pending !! k with
      | Some i => i :: pick_order fuel' (tl choices) (delete k pending)
      | None => []
      end
  end.

Definition order (choices : list nat) (n : nat) : list nat :=
  pick_order n choices (seq 0 n).

End Scheduler.

(** ** The concurrent task runner ([pkg/util]) *)

Module Util.

Section ConcurrentTasks.
Context {St : Type}.

(** The values sent on [errChannel] and not yet received, oldest
    first.  The spec gives the channel room for one value per unit, so
    a send never blocks a unit that sends at most once. *)
Definition errChan : Type := list error.

(** [ConcurrentTask{ToRun: func(errChannel chan error) {...}}], as the
    callers build it: a closure that acts on the state it captured and
    may send on the channel it is given. *)
Record ConcurrentTask : Type := { ToRun : St → errChan → St * errChan }.

(** Modelled from the spec: the type [ConcurrentTasks] of [pkg/util]
    is not among the sources.  A runner holds its declared capacity,
    the units registered so far, and whether [Run] was already
    invoked. *)
Record ConcurrentTasks : Type := {
  capacity : nat;
  tasks : list ConcurrentTask;
  started : bool
}.

(** Modelled from the spec: [NewConcurrentTasks] is not among the
    sources.  The runner is constructed with a fixed capacity and no
    registered unit. *)
Definition NewConcurrentTasks (taskNumber : nat) : ConcurrentTasks :=
  {| capacity := taskNumber; tasks := []; started := false |}.

(** Modelled from the spec: [Add] is not among the sources.  Adding
    more units than the declared capacity, or adding to a runner that
    was already run, is a programming error that fails at registration
    time.  The callers in the repository use [Add] as a statement, so
    the failure is a panic. *)
Definition Add (ct : ConcurrentTasks) (task : ConcurrentTask)
  : Result ConcurrentTasks :=
  if started ct then Panic "ConcurrentTasks: Add after Run"
  else if decide (length (tasks ct) < capacity ct) then
    Normal {| capacity := capacity ct;
              tasks := tasks ct ++ [task];
              started := false |}
  else Panic "ConcurrentTasks: more tasks than the declared capacity".

(** The launched units run to completion one after the other in the
    order the scheduler chose; each sees the state and the channel the
    previous ones left. *)
Fixpoint launch (ord : list nat) (ts : list ConcurrentTask)
    (st : St) (errChannel : errChan) : St * errChan :=
  match ord with
  | [] => (st, errChannel)
  | i :: ord' =>
      match ts !! i with
      | Some t =>
          let '(st', errChannel') := ToRun t st errChannel in
          launch ord' ts st' errChannel'
      | None => launch ord' ts st errChannel
      end
  end.

(** Modelled from the spec: [Run] is not among the sources.  [Run]
    launches every registered unit and returns the first error that
    arrives on the channel, or nil when all units finished and none
    sent one.  A second [Run] on the same runner is a programming
    error.  The state handed on is the one reached when every launched
    unit has finished, those that finish in the background after the
    first error included (the spec requires their completions to be
    drained); it is not the state at the moment [Run] returns, which is
    [stateAtReturn] below. *)
Definition Run (choices : list nat) (ct : ConcurrentTasks) (st : St)
  : Result (ConcurrentTasks * St * option error) :=
  if started ct then Panic "ConcurrentTasks: Run invoked twice"
  else
    let ord := Scheduler.order choices (length (tasks ct)) in
    let '(st', errChannel) := launch ord (tasks ct) st [] in
    Normal ({| capacity := capacity ct; tasks := tasks ct; started := true |},
            st', head errChannel).

(** The units launched by a [Run], in launch order. *)
Definition launched (choices : list nat) (ct : ConcurrentTasks) : list nat :=
  if started ct then [] else Scheduler.order choices (length (tasks ct)).

(** Modelled from the spec: the moment at which [Run] returns.  [Run]
    waits until all units have finished without a failure or until the
    first failure arrives, and then returns at once, without waiting
    for the units that are still running.  Of the units that run in the
    order [ord], [untilFirstError] keeps those that have finished at
    that moment: all of them when none sends, and otherwise those up to
    the first one that sends, that one included. *)
Fixpoint untilFirstError (ord : list nat) (ts : list ConcurrentTask)
    (st : St) (errChannel : errChan) : list nat :=
  match ord with
  | [] => []
  | i :: ord' =>
      match ts !! i with
      | Some t =>
          let '(st', errChannel') := ToRun t st errChannel in
          match errChannel' with
          | [] => i :: untilFirstError ord' ts st' errChannel'
          | _ :: _ => [i]
          end
      | None => i :: untilFirstError ord' ts st errChannel
      end
  end.

(** Modelled from the spec: the units that have finished when [Run]
    returns, in the order they ran; the others are still running
    then and finish in the background. *)
Definition finishedAtReturn (choices : list nat) (ct : ConcurrentTasks)
    (st : St) : list nat :=
  untilFirstError (Scheduler.order choices (length (tasks ct))) (tasks ct) st [].

(** Modelled from the spec: the state at the moment [Run] returns. *)
Definition stateAtReturn (choices : list nat) (ct : ConcurrentTasks) (st : St)
  : St :=
  (launch (finishedAtReturn choices ct st) (tasks ct) st []).1.

End ConcurrentTasks.

Arguments ConcurrentTask St : clear implicits.
Arguments ConcurrentTasks St : clear implicits.

End Util.

(** A [for _, x := range l { ... }] loop whose body may panic. *)
Fixpoint forRange {A T : Type} (l : list A) (s : T) (body : A → T → Result T)
  : Result T :=
  match l with
  | [] => Normal s
  | x :: l' => s' ← body x s; forRange l' s' body
  end.

(** A [for i, x := range l { ... }] loop whose body may panic; [i] is
    the index of the first element of [l]. *)
Fixpoint forRangeIndexed {A T : Type} (i : nat) (l : list A) (s : T)
    (body : nat → A → T → Result T) : Result T :=
  match l with
  | [] => Normal s
  | x :: l' => s' ← body i x s; forRangeIndexed (S i) l' s' body
  end.

(** ** Commands ([pkg/devfile/adapters/common]) *)

Module Common.
Import Util.

Section Commands.
Context {World : Type}.

(** What a call acts on: the world outside the engine, on which the
    supplied actions have their side effects, and the numbers the
    scheduler will draw its next choices from. *)
Record Machine : Type := { world : World; sched : list nat }.

(** The scheduler hands the next [n] choices to a runner. *)
Definition nextChoices (n : nat) (m : Machine) : list nat * Machine :=
  (take n (sched m), {| world := world m; sched := drop n (sched m) |}).

(** The interface [command], as [parallelCompositeCommand] uses it:
    [Execute(show bool) error] and [UnExecute() error].  A call returns;
    a failure is an error value. *)
Record command : Type := {
  Execute : bool → Machine → Machine * option error;
  UnExecute : Machine → Machine * option error
}.

(** [type parallelCompositeCommand struct { cmds []command }] *)
Record parallelCompositeCommand : Type := { cmds : list command }.

(** [parallelCompositeCommand.Execute], up to the call of [Run]: the
    runner is created and one closure per command is added to it. *)
Definition parallelCompositeCommand_Execute_tasks
    (p : parallelCompositeCommand) (show : bool)
  : Result (ConcurrentTasks Machine) :=
  let commandExecs := NewConcurrentTasks (length (cmds p)) in
  forRange (cmds p) commandExecs (λ command commandExecs,
    let cmd := command in
    Add commandExecs {| ToRun := λ m errChannel,
      let '(m, err) := Execute cmd show m in
      match err with
      | Some err => (m, errChannel ++ [err])
      | None => (m, errChannel)
      end |}).

(** [func (p parallelCompositeCommand) Execute(show bool) error].  The
    result carries, besides the error, the receiver as the body leaves
    it, and the machine in which the units it launched have all
    finished; the machine at the moment of the return is
    [parallelCompositeCommand_Execute_atReturn] below. *)
Definition parallelCompositeCommand_Execute
    (p : parallelCompositeCommand) (show : bool) (m : Machine)
  : Result (parallelCompositeCommand * Machine * option error) :=
  commandExecs ← parallelCompositeCommand_Execute_tasks p show;
  let '(choices, m) := nextChoices (length (cmds p)) m in
  '(_, m, err) ← Run choices commandExecs m;
  match err with
  | Some err =>
      Normal (p, m, Some (Errorf_w "parallel command execution failed: " err))
  | None => Normal (p, m, None)
  end.

(** [parallelCompositeCommand.UnExecute], up to the call of [Run]. *)
Definition parallelCompositeCommand_UnExecute_tasks
    (p : parallelCompositeCommand) : Result (ConcurrentTasks Machine) :=
  let commandExecs := NewConcurrentTasks (length (cmds p)) in
  forRange (cmds p) commandExecs (λ command commandExecs,
    let cmd := command in
    Add commandExecs {| ToRun := λ m errChannel,
      let '(m, err) := UnExecute cmd m in
      match err with
      | Some err => (m, errChannel ++ [err])
      | None => (m, errChannel)
      end |}).

(** [func (p parallelCompositeCommand) UnExecute() error] *)
Definition parallelCompositeCommand_UnExecute
    (p : parallelCompositeCommand) (m : Machine)
  : Result (parallelCompositeCommand * Machine * option error) :=
  commandExecs ← parallelCompositeCommand_UnExecute_tasks p;
  let '(choices, m) := nextChoices (length (cmds p)) m in
  '(_, m, err) ← Run choices commandExecs m;
  match err with
  | Some err =>
      Normal (p, m, Some (Errorf_w "parallel command execution failed: " err))
  | None => Normal (p, m, None)
  end.

(** The machine at the moment [Execute] returns.  When a child fails,
    [Run] returns before the units still running have finished, so this
    machine can differ from the one [parallelCompositeCommand_Execute]
    hands on, in which they have. *)
Definition parallelCompositeCommand_Execute_atReturn
    (p : parallelCompositeCommand) (show : bool) (m : Machine)
  : Result Machine :=
  commandExecs ← parallelCompositeCommand_Execute_tasks p show;
  let '(choices, m) := nextChoices (length (cmds p)) m in
  Normal (stateAtReturn choices commandExecs m).

(** The machine at the moment [UnExecute] returns. *)
Definition parallelCompositeCommand_UnExecute_atReturn
    (p : parallelCompositeCommand) (m : Machine) : Result Machine :=
  commandExecs ← parallelCompositeCommand_UnExecute_tasks p;
  let '(choices, m) := nextChoices (length (cmds p)) m in
  Normal (stateAtReturn choices commandExecs m).

(** [newParallelCompositeCommand]: the struct seen through the
    interface.  A panic does not return to the caller;
    [parallelCompositeCommand_Execute_returns] below shows that the
    methods never panic, so the last branch is never taken. *)
Definition newParallelCompositeCommand (cmds : list command) : command :=
  let p := {| cmds := cmds |} in
  {| Execute := λ show m,
       match parallelCompositeCommand_Execute p show m with
       | Normal (_, m', err) => (m', err)
       | Panic _ => (m, None)
       end;
     UnExecute := λ m,
       match parallelCompositeCommand_UnExecute p m with
       | Normal (_, m', err) => (m', err)
       | Panic _ => (m, None)
       end |}.

(** Modelled from the spec: the leaf command is not among the sources.
    It wraps one forward action and one compensating action supplied
    by the caller; [Execute] and [UnExecute] invoke them and return
    their error verbatim. *)
Record leafCommand : Type := {
  forward : bool → World → World * option error;
  compensate : World → World * option error
}.

Definition leafCommand_Execute (l : leafCommand) (show : bool) (m : Machine)
  : leafCommand * Machine * option error :=
  let '(w, err) := forward l show (world m) in
  (l, {| world := w; sched := sched m |}, err).

Definition leafCommand_UnExecute (l : leafCommand) (m : Machine)
  : leafCommand * Machine * option error :=
  let '(w, err) := compensate l (world m) in
  (l, {| world := w; sched := sched m |}, err).

Definition newLeafCommand (l : leafCommand) : command :=
  {| Execute := λ show m, let '(_, m', err) := leafCommand_Execute l show m in (m', err);
     UnExecute := λ m, let '(_, m', err) := leafCommand_UnExecute l m in (m', err) |}.

(** Modelled from the spec: the sequential composite command is not
    among the sources.  It holds an ordered list of commands; [Execute]
    runs each child's [Execute] in declaration order and stops at the
    first failure, which it returns unchanged; [UnExecute] does the
    same over each child's [UnExecute]. *)
Record sequentialCompositeCommand : Type := { seq_cmds : list command }.

Fixpoint eachInOrder (call : command → Machine → Machine * option error)
    (cs : list command) (m : Machine) : Machine * option error :=
  match cs with
  | [] => (m, None)
  | cmd :: cs' =>
      let '(m', err) := call cmd m in
      match err with
      | Some err => (m', Some err)
      | None => eachInOrder call cs' m'
      end
  end.

Definition sequentialCompositeCommand_Execute
    (s : sequentialCompositeCommand) (show : bool) (m : Machine)
  : sequentialCompositeCommand * Machine * option error :=
  let '(m', err) := eachInOrder (λ cmd, Execute cmd show) (seq_cmds s) m in
  (s, m', err).

Definition sequentialCompositeCommand_UnExecute
    (s : sequentialCompositeCommand) (m : Machine)
  : sequentialCompositeCommand * Machine * option error :=
  let '(m', err) := eachInOrder UnExecute (seq_cmds s) m in
  (s, m', err).

Definition newSequentialCompositeCommand (cmds : list command) : command :=
  let s := {| seq_cmds := cmds |} in
  {| Execute := λ show m,
       let '(_, m', err) := sequentialCompositeCommand_Execute s show m in (m', err);
     UnExecute := λ m,
       let '(_, m', err) := sequentialCompositeCommand_UnExecute s m in (m', err) |}.

End Commands.

Arguments Machine World : clear implicits.
Arguments command World : clear implicits.
Arguments parallelCompositeCommand World : clear implicits.
Arguments sequentialCompositeCommand World : clear implicits.
Arguments leafCommand World : clear implicits.

End Common.

(** ** Listing the devfile stacks of the registries ([pkg/registry]) *)

(** [preference.Registry], as far as [GetDevfileRegistries] reads it. *)
Module preference.
Record Registry : Type := { Name : string; URL : string; Secure : bool }.
End preference.

Module registry.
Import Util.

Record Registry : Type := { Name : string; URL : string; Secure : bool }.

(** [DevfileStack], with the fields [createRegistryDevfiles] fills. *)
Record DevfileStack : Type := {
  stack_Name : string;
  stack_DisplayName : string;
  stack_Description : string;
  stack_Link : string;
  stack_Registry : Registry;
  stack_Language : string;
  stack_Tags : list string;
  stack_ProjectType : string
}.

Record DevfileStackList : Type := {
  DevfileRegistries : list Registry;
  Items : list DevfileStack
}.

(** [RegistryClient], reduced to what [o.preferenceClient.RegistryList()]
    returns: a pointer to the list of configured registries, or nil. *)
Record RegistryClient : Type := {
  RegistryList : option (list preference.Registry)
}.

(** The loop of [GetDevfileRegistries], from index [n - 1] down to 0.
    A Go slice built only by [append] is nil exactly when it is empty, so
    the result is a list and nil is []. *)
Fixpoint GetDevfileRegistries_loop (hasName : bool) (registryName : string)
    (registryList : list preference.Registry) (n : nat)
    (devfileRegistries : list Registry) : list Registry :=
  match n with
  | 0 => devfileRegistries
  | S i =>
      match registryList !! i with
      | Some registry =>
          let reg := {| Name := preference.Name registry;
                        URL := preference.URL registry;
                        Secure := preference.Secure registry |} in
          if hasName then
            if String.eqb registryName (preference.Name registry) then
              devfileRegistries ++ [reg]
            else
              GetDevfileRegistries_loop hasName registryName registryList i
                devfileRegistries
          else
            GetDevfileRegistries_loop hasName registryName registryList i
              (devfileRegistries ++ [reg])
      | None => devfileRegistries
      end
  end.

(** [func (o RegistryClient) GetDevfileRegistries(registryName string)
    ([]Registry, error)] *)
Definition GetDevfileRegistries (o : RegistryClient) (registryName : string)
  : list Registry * option error :=
  let hasName := negb (String.length registryName =? 0) in
  match RegistryList o with
  | Some registryList =>
      (GetDevfileRegistries_loop hasName registryName registryList
         (length registryList) [], None)
  | None => ([], None)
  end.

(** What the closures of [ListDevfileStacks] share: the slice
    [registrySlice] they write into and the warnings printed by
    [log.Warningf]. *)
Record Shared : Type := {
  registrySlice : list (list DevfileStack);
  warnings : list string
}.

Definition newline : string := String (Ascii.ascii_of_nat 10) EmptyString.

(** The text [log.Warningf] prints for a registry that cannot be read. *)
Definition warningText (reg : Registry) (err : error) : string :=
  "Registry " +:+ Name reg +:+ " is not set up properly with error: "
  +:+ Sprint_v err
  +:+ ", please check the registry URL and credential (refer `odo registry update --help`)"
  +:+ newline.

Section ListDevfileStacks.

(** [getRegistryStacks(o.preferenceClient, registry)] downloads the index
    of a registry; what the download yields for each registry is given
    from outside. *)
Variable getRegistryStacks : Registry → list DevfileStack * option error.

(** The closure added for the registry [registry] of priority
    [registryPriority].  The index is always below the length of
    [registrySlice] (see [retrieval_index_in_range]), so the assignment
    never goes out of range.  A unit runs to completion without
    interleaving, which is what the mutex ensures for the assignment. *)
Definition retrieval (registryPriority : nat) (registry : Registry)
  : ConcurrentTask Shared :=
  {| ToRun := λ sh errChannel,
       let '(registryDevfiles, err) := getRegistryStacks registry in
       match err with
       | Some err =>
           ({| registrySlice := registrySlice sh;
               warnings := warnings sh ++ [warningText registry err] |},
            errChannel)
       | None =>
           ({| registrySlice := <[registryPriority := registryDevfiles]> (registrySlice sh);
               warnings := warnings sh |},
            errChannel)
       end |}.

(** [func (o RegistryClient) ListDevfileStacks(registryName string)
    (DevfileStackList, error)].  [out] is what [log.Warningf] had printed
    before the call; the result carries what it has printed after it. *)
Definition ListDevfileStacks (o : RegistryClient) (registryName : string)
    (choices : list nat) (out : list string)
  : Result (DevfileStackList * option error * list string) :=
  let catalogDevfileList := {| DevfileRegistries := []; Items := [] |} in
  let '(regs, err) := GetDevfileRegistries o registryName in
  let catalogDevfileList :=
    {| DevfileRegistries := regs; Items := Items catalogDevfileList |} in
  match err with
  | Some err => Normal (catalogDevfileList, Some err, out)
  | None =>
      match DevfileRegistries catalogDevfileList with
      | [] => Normal (catalogDevfileList, None, out)
      | _ :: _ =>
          let retrieveRegistryIndices :=
            NewConcurrentTasks (length (DevfileRegistries catalogDevfileList)) in
          let registrySlice0 : list (list DevfileStack) :=
            replicate (length (DevfileRegistries catalogDevfileList)) [] in
          retrieveRegistryIndices ←
            forRangeIndexed 0 (DevfileRegistries catalogDevfileList)
              retrieveRegistryIndices
              (λ regPriority reg retrieveRegistryIndices,
                 let registry := reg in
                 let registryPriority := regPriority in
                 Add retrieveRegistryIndices (retrieval registryPriority registry));
          '(_, sh, err) ←
            Run choices retrieveRegistryIndices
              {| registrySlice := registrySlice0; warnings := out |};
          match err with
          | Some err => Normal (catalogDevfileList, Some err, warnings sh)
          | None =>
              let items :=
                fold_left (λ items registryDevfiles, items ++ registryDevfiles)
                  (registrySlice sh) (Items catalogDevfileList) in
              Normal ({| DevfileRegistries := DevfileRegistries catalogDevfileList;
                         Items := items |}, None, warnings sh)
          end
      end
  end.

(** What a registry contributes to the listing: its stacks when the
    download succeeds, nothing when it fails. *)
Definition stacksOf (reg : Registry) : list DevfileStack :=
  let '(registryDevfiles, err) := getRegistryStacks reg in
  match err with
  | Some _ => []
  | None => registryDevfiles
  end.

Definition retrievalFails (reg : Registry) : bool :=
  match (getRegistryStacks reg).2 with Some _ => true | None => false end.

End ListDevfileStacks.

End registry.

(** ** Observing which children a composite invokes *)

Module Probes.
Import Util Common.

(** The two methods of the interface, as one selector. *)
Inductive method : Type :=
| callExecute (show : bool)
| callUnExecute.

Definition invoke {World : Type} (meth : method) (cmd : command World)
  : Machine World → Machine World * option error :=
  match meth with
  | callExecute show => Execute cmd show
  | callUnExecute => UnExecute cmd
  end.

Definition parallelCompositeCommand_invoke {World : Type} (meth : method)
    (p : parallelCompositeCommand World) (m : Machine World)
  : Result (parallelCompositeCommand World * Machine World * option error) :=
  match meth with
  | callExecute show => parallelCompositeCommand_Execute p show m
  | callUnExecute => parallelCompositeCommand_UnExecute p m
  end.

Definition sequentialCompositeCommand_invoke {World : Type} (meth : method)
    (s : sequentialCompositeCommand World) (m : Machine World)
  : sequentialCompositeCommand World * Machine World * option error :=
  match meth with
  | callExecute show => sequentialCompositeCommand_Execute s show m
  | callUnExecute => sequentialCompositeCommand_UnExecute s m
  end.

Definition parallelCompositeCommand_atReturn {World : Type} (meth : method)
    (p : parallelCompositeCommand World) (m : Machine World)
  : Result (Machine World) :=
  match meth with
  | callExecute show => parallelCompositeCommand_Execute_atReturn p show m
  | callUnExecute => parallelCompositeCommand_UnExecute_atReturn p m
  end.

Definition leafCommand_invoke {World : Type} (meth : method)
    (l : leafCommand World) (m : Machine World)
  : leafCommand World * Machine World * option error :=
  match meth with
  | callExecute show => leafCommand_Execute l show m
  | callUnExecute => leafCommand_UnExecute l m
  end.

Section Probes.
Context {W : Type}.

(** A log of calls: the index of the child that was invoked and what the
    call returned, in the order the calls completed. *)
Definition Log : Type := list (nat * option error).

(** The world of the children, extended with the log. *)
Definition Observed : Type := W * Log.

Definition hide (m : Machine Observed) : Machine W :=
  {| world := (world m).1; sched := sched m |}.

Definition calls (m : Machine Observed) : Log := (world m).2.

Definition logged (m : Machine Observed) (m' : Machine W)
    (entry : nat * option error) : Machine Observed :=
  {| world := (world m', calls m ++ [entry]); sched := sched m' |}.

(** [probe i c] behaves as [c] on the world of [c] and writes one log
    entry per call. *)
Definition probe (i : nat) (c : command W) : command Observed :=
  {| Execute := λ show m,
       let '(m', err) := Execute c show (hide m) in (logged m m' (i, err), err);
     UnExecute := λ m,
       let '(m', err) := UnExecute c (hide m) in (logged m m' (i, err), err) |}.

(** The children numbered from [k] in declaration order. *)
Definition probedFrom (k : nat) (cs : list (command W)) : list (command Observed) :=
  imap (λ i, probe (k + i)) cs.

Definition probed (cs : list (command W)) : list (command Observed) :=
  probedFrom 0 cs.

(** The errors a log holds, in order. *)
Definition failures (tr : Log) : list error := omap snd tr.

(** A journal of calls: which method was invoked, with which flag, on
    which child, and what the call returned, in the order the calls
    completed. *)
Definition Journal : Type := list (method * nat * option error).

(** The world of the children, extended with the journal. *)
Definition Traced : Type := W * Journal.

Definition untraced (m : Machine Traced) : Machine W :=
  {| world := (world m).1; sched := sched m |}.

Definition journal (m : Machine Traced) : Journal := (world m).2.

Definition noted (m : Machine Traced) (m' : Machine W)
    (entry : method * nat * option error) : Machine Traced :=
  {| world := (world m', journal m ++ [entry]); sched := sched m' |}.

(** [trace i c] behaves as [c] on the world of [c] and writes one
    journal entry per call, which names the method called. *)
Definition trace (i : nat) (c : command W) : command Traced :=
  {| Execute := λ show m,
       let '(m', err) := Execute c show (untraced m) in
       (noted m m' (callExecute show, i, err), err);
     UnExecute := λ m,
       let '(m', err) := UnExecute c (untraced m) in
       (noted m m' (callUnExecute, i, err), err) |}.

(** The children numbered from [k] in declaration order. *)
Definition tracedFrom (k : nat) (cs : list (command W)) : list (command Traced) :=
  imap (λ i, trace (k + i)) cs.

Definition traced (cs : list (command W)) : list (command Traced) :=
  tracedFrom 0 cs.

(** The errors a journal holds, in order. *)
Definition failed (tr : Journal) : list error := omap snd tr.

(** The entries of the calls of [meth], one for each index of [ord]. *)
Definition callsOf (meth : method) (ord : list nat) : list (method * nat) :=
  (λ i, (meth, i)) <$> ord.

End Probes.

(** The prefix [fmt.Errorf] puts before the error of a child. *)
Definition parallelPrefix : string := "parallel command execution failed: ".

(** The closure [Execute] and [UnExecute] add for a child: call the
    child, send its error if it has one. *)
Definition unitOf {World : Type}
    (call : command World → Machine World → Machine World * option error)
    (cmd : command World) : ConcurrentTask (Machine World) :=
  {| ToRun := λ m errChannel,
       let '(m, err) := call cmd m in
       match err with
       | Some err => (m, errChannel ++ [err])
       | None => (m, errChannel)
       end |}.

End Probes.

(** ** Command trees held in memory *)

Module Memory.
Import Util Common Probes.

(** The backing arrays of the [cmds] slices of the composites, by
    address.  An element is a command value, named by its identity; the
    values themselves are immutable, so what a call could change of a
    tree is which values the arrays hold, how many, and in which
    order. *)
Definition Slices : Type := gmap nat (list nat).

Section Memory.
Context {E : Type}.

(** What the commands of a tree act on: the world outside the engine,
    and the memory that holds the tree. *)
Definition Stored : Type := E * Slices.

Definition slices (m : Machine Stored) : Slices := (world m).2.

(** [p.cmds], read when a method of the composite whose slice is at
    address [a] is called: the commands the elements name, in order,
    [commandAt] giving the command value of each identity.  An array
    that is missing is the nil slice. *)
Definition cmdsAt (commandAt : nat → command Stored) (a : nat)
    (m : Machine Stored) : list (command Stored) :=
  commandAt <$> default [] (slices m !! a).


(** Modelled from the spec: the sequential composite command is not
    among the sources.  Its children are the slice at address [a]. *)
Definition sequentialAt (commandAt : nat → command Stored) (a : nat)
  : command Stored :=
  {| Execute := λ show m,
       Execute (newSequentialCompositeCommand (cmdsAt commandAt a m)) show m;
     UnExecute := λ m,
       UnExecute (newSequentialCompositeCommand (cmdsAt commandAt a m)) m |}.

(** Modelled from the spec: the leaf command is not among the sources.
    The actions it wraps have their side effects on the world outside
    the engine. *)
Definition leafAt (l : leafCommand E) : command Stored :=
  newLeafCommand
    {| forward := λ show w,
         let '(e, err) := forward l show w.1 in ((e, w.2), err);
       compensate := λ w,
         let '(e, err) := compensate l w.1 in ((e, w.2), err) |}.


(** A command that is none of the three: it succeeds and leaves the
    array at address [a] empty. *)
Definition clearing (a : nat) : command Stored :=
  {| Execute := λ _ m,
       ({| world := ((world m).1, <[a := []]> (slices m)); sched := sched m |},
        None);
     UnExecute := λ m,
       ({| world := ((world m).1, <[a := []]> (slices m)); sched := sched m |},
        None) |}.

End Memory.

End Memory.

(** ** Concrete commands and registries used to exercise the theorems *)

Module Examples.
Import Util Common Probes.

(** A leaf whose two actions fail with the message [msg]. *)
Definition failing (msg : string) : command unit :=
  newLeafCommand {| forward := λ _ w, (w, Some (errorString msg));
                    compensate := λ w, (w, Some (errorString msg)) |}.

(** A leaf whose two actions succeed. *)
Definition succeeding : command unit :=
  newLeafCommand {| forward := λ _ w, (w, None);
                    compensate := λ w, (w, None) |}.

(** An empty log and the given scheduler choices. *)
Definition start (choices : list nat) : Machine (@Observed unit) :=
  {| world := (tt, []); sched := choices |}.

Definition twoFailing : list (command unit) := [failing "a"; failing "b"].

Definition oneFailing : list (command unit) :=
  [succeeding; failing "b"; succeeding].

End Examples.

Module MemoryExamples.
Import Util Common Probes Memory.


Definition succeedingLeaf : leafCommand unit :=
  {| forward := λ _ w, (w, None); compensate := λ w, (w, None) |}.



Definition sampleMemory : Slices := {[ 10 := [0; 1]; 20 := [2; 1] ]}.


(** The same sequence with, as its second child, a command that clears
    the array of the sequence. *)
Definition clearingNodes (id : nat) : command (@Stored unit) :=
  match id with
  | 1 => clearing 20
  | _ => leafAt succeedingLeaf
  end.

End MemoryExamples.

Module RegistryExamples.
Import registry.

(** [Registry{Name: registry.Name, URL: registry.URL, Secure:
    registry.Secure}] *)
Definition fromPreference (registry : preference.Registry) : Registry :=
  {| Name := preference.Name registry;
     URL := preference.URL registry;
     Secure := preference.Secure registry |}.

(** A configuration with two registries, the second of which cannot be
    read. *)
Definition sampleStack (reg : Registry) : DevfileStack :=
  {| stack_Name := "go"; stack_DisplayName := "Go Runtime";
     stack_Description := "Go"; stack_Link := "/devfiles/go";
     stack_Registry := reg; stack_Language := "go";
     stack_Tags := ["Go"]; stack_ProjectType := "go" |}.

Definition sampleRetrieval (reg : Registry) : list DevfileStack * option error :=
  if String.eqb (Name reg) "broken"
  then ([], Some (errorString "connection refused"))
  else ([sampleStack reg], None).

Definition sampleClient : RegistryClient :=
  {| RegistryList := Some
       [ {| preference.Name := "default";
            preference.URL := "https://registry.devfile.io";
            preference.Secure := false |};
         {| preference.Name := "broken";
            preference.URL := "https://registry.invalid";
            preference.Secure := false |} ] |}.

Definition brokenRegistry : Registry :=
  {| Name := "broken"; URL := "https://registry.invalid"; Secure := false |}.

Definition defaultRegistry : Registry :=
  {| Name := "default"; URL := "https://registry.devfile.io"; Secure := false |}.

End RegistryExamples.

(** ** Go's [strings] functions the registry code calls *)

Module GoStrings.

(** The string without its first [n] bytes. *)
Fixpoint skip (n : nat) (s : string) : string :=
  match n, s with
  | 0, _ => s
  | S n', String _ s' => skip n' s'
  | S _, EmptyString => EmptyString
  end.

(** [strings.Contains(s, substr)] *)
Fixpoint Contains (s substr : string) : bool :=
  String.prefix substr s ||
  match s with
  | EmptyString => false
  | String _ s' => Contains s' substr
  end.

(** [strings.Replace(s, old, new, 1)]: the first occurrence of [old]
    is replaced, and [s] is returned as it is when there is none. *)
Fixpoint Replace1 (s old new : string) : string :=
  if String.prefix old s then new +:+ skip (String.length old) s
  else match s with
       | EmptyString => EmptyString
       | String c s' => String c (Replace1 s' old new)
       end.

(** [strings.Split(s, sep)] for a separator [sep] of one byte: the
    pieces of [s] between the occurrences of [sep]; one more piece than
    there are occurrences. *)
Fixpoint Split (s : string) (sep : Ascii.ascii) : list string :=
  match s with
  | EmptyString => [EmptyString]
  | String c s' =>
      if Ascii.eqb c sep then EmptyString :: Split s' sep
      else match Split s' sep with
           | piece :: pieces => String c piece :: pieces
           | [] => [String c EmptyString]
           end
  end.

(** The byte ['/']. *)
Definition slash : Ascii.ascii := Ascii.ascii_of_nat 47.

(** The byte [c] does not occur in [s]. *)
Fixpoint noByte (c : Ascii.ascii) (s : string) : bool :=
  match s with
  | EmptyString => true
  | String x s' => negb (Ascii.eqb x c) && noByte c s'
  end.

End GoStrings.

(** ** Reading the index of a registry ([pkg/registry]) *)

Module registryIndex.
Import GoStrings registry.

(** [indexSchema.Schema], as far as [createRegistryDevfiles] reads it.
    [Links] is a Go map; reading a missing key gives the empty string. *)
Record Schema : Type := {
  schema_Name : string;
  schema_DisplayName : string;
  schema_Description : string;
  schema_Links : gmap string string;
  schema_Language : string;
  schema_Tags : list string;
  schema_ProjectType : string
}.

(** The loop of [createRegistryDevfiles]. *)
Fixpoint createRegistryDevfiles_loop (registry : Registry)
    (devfileIndex : list Schema) (registryDevfiles : list DevfileStack)
  : list DevfileStack :=
  match devfileIndex with
  | [] => registryDevfiles
  | devfileIndexEntry :: rest =>
      let stackDevfile :=
        {| stack_Name := schema_Name devfileIndexEntry;
           stack_DisplayName := schema_DisplayName devfileIndexEntry;
           stack_Description := schema_Description devfileIndexEntry;
           stack_Link := default "" (schema_Links devfileIndexEntry !! "self");
           stack_Registry := registry;
           stack_Language := schema_Language devfileIndexEntry;
           stack_Tags := schema_Tags devfileIndexEntry;
           stack_ProjectType := schema_ProjectType devfileIndexEntry |} in
      createRegistryDevfiles_loop registry rest (registryDevfiles ++ [stackDevfile])
  end.

(** [func createRegistryDevfiles(registry Registry, devfileIndex
    []indexSchema.Schema) ([]DevfileStack, error)] *)
Definition createRegistryDevfiles (registry : Registry)
    (devfileIndex : list Schema) : list DevfileStack * option error :=
  (createRegistryDevfiles_loop registry devfileIndex [], None).

(** [const indexPath = "/devfiles/index.json"] *)
Definition indexPath : string := "/devfiles/index.json".

Section ConvertURL.

(** [url.Parse(URL)], reduced to the host of the parsed URL, or the
    error of the parser. *)
Variable url_Parse_Host : string → string * option error.

(** [func convertURL(URL string) (string, error)] *)
Definition convertURL (URL : string) : string * option error :=
  let '(Host, err) := url_Parse_Host URL in
  match err with
  | Some err => ("", Some err)
  | None =>
      if Contains Host "github" && negb (Contains Host "raw") then
        let URLSlice := Split URL slash in
        let URL :=
          if (2 <? length URLSlice) &&
             bool_decide (URLSlice !! (length URLSlice - 2) = Some "tree")
          then Replace1 URL "/tree" ""
          else URL +:+ "/master" in
        let URL :=
          if String.eqb Host "github.com"
          then Replace1 URL "github.com" "raw.githubusercontent.com"
          else Replace1 URL Host ("raw." +:+ Host) in
        (URL, None)
      else (URL, None)
  end.

End ConvertURL.

(** [dfutil.HTTPRequestParams], as far as [getRegistryStacks] fills it. *)
Record HTTPRequestParams : Type := {
  request_URL : string;
  request_Token : string
}.

Section GetRegistryStacks.

(** What lies outside the program: the network, the HTTP cache on disk
    and the log. *)
Context {W : Type}.

Variable url_Parse_Host : string → string * option error.

(** [library.GetRegistryIndex(registry.URL, segment.GetRegistryOptions(),
    indexSchema.StackDevfileType)] *)
Variable GetRegistryIndex : string → W → W * (list Schema * option error).

(** [registryUtil.IsSecure(preferenceClient, registry.Name)] *)
Variable IsSecure : string → bool.

(** [keyring.Get(service, user)], and the two constants
    [dfutil.CredentialPrefix] and [registryUtil.RegistryUser]. *)
Variable keyring_Get : string → string → string * option error.
Variable CredentialPrefix : string.
Variable RegistryUser : string.

(** [dfutil.HTTPGetRequest(request, cacheTime)] and
    [preferenceClient.GetRegistryCacheTime()] *)
Variable HTTPGetRequest : HTTPRequestParams → Z → W → W * (string * option error).
Variable GetRegistryCacheTime : Z.

(** [json.Unmarshal(jsonBytes, &devfileIndex)]: from the bytes and the
    value [devfileIndex] holds, the value it holds afterwards and the
    error.  A decoding that fails can leave entries behind, which the
    next decoding into the same variable finds there. *)
Variable json_Unmarshal : string → list Schema → list Schema * option error.

(** [util.CleanDefaultHTTPCacheDir()] and [log.Warning] *)
Variable CleanDefaultHTTPCacheDir : W → W * option error.
Variable log_Warning : string → W → W.

(** [func getRegistryStacks(preferenceClient preference.Client, registry
    Registry) ([]DevfileStack, error)].  A nil slice is []. *)
Definition getRegistryStacks (registry : Registry) (w : W)
  : W * (list DevfileStack * option error) :=
  if negb (Contains (URL registry) "github") then
    let '(w, (devfileIndex, err)) := GetRegistryIndex (URL registry) w in
    match err with
    | Some err => (w, ([], Some err))
    | None => (w, createRegistryDevfiles registry devfileIndex)
    end
  else
    let '(URL', err) := convertURL url_Parse_Host (URL registry) in
    match err with
    | Some err =>
        (w, ([], Some (Errorf_w ("unable to convert URL " +:+ URL registry +:+ ": ")
                         err)))
    | None =>
        let registry :=
          {| Name := Name registry; URL := URL'; Secure := Secure registry |} in
        let indexLink := URL registry +:+ indexPath in
        let request := {| request_URL := indexLink; request_Token := "" |} in
        let secure := IsSecure (Name registry) in
        let credential : HTTPRequestParams + error :=
          if secure then
            let '(token, e) :=
              keyring_Get (CredentialPrefix +:+ Name registry) RegistryUser in
            match e with
            | Some e =>
                inr (Errorf_w
                       "unable to get secure registry credential from keyring: " e)
            | None =>
                inl {| request_URL := request_URL request; request_Token := token |}
            end
          else inl request in
        match credential with
        | inr err => (w, ([], Some err))
        | inl request =>
            let '(w, (jsonBytes, err)) :=
              HTTPGetRequest request GetRegistryCacheTime w in
            match err with
            | Some err =>
                (w, ([], Some (Errorf_w
                                 ("unable to download the devfile index.json from "
                                    +:+ indexLink +:+ ": ") err)))
            | None =>
                let '(devfileIndex, err) := json_Unmarshal jsonBytes [] in
                match err with
                | Some _ =>
                    let '(w, cleanErr) := CleanDefaultHTTPCacheDir w in
                    let w :=
                      match cleanErr with
                      | Some _ => log_Warning "Error while cleaning up cache dir." w
                      | None => w
                      end in
                    let '(w, (jsonBytes, err)) :=
                      HTTPGetRequest request GetRegistryCacheTime w in
                    match err with
                    | Some err =>
                        (w, ([], Some (Errorf_w
                                         ("unable to download the devfile index.json from "
                                            +:+ indexLink +:+ ": ") err)))
                    | None =>
                        let '(devfileIndex, err) :=
                          json_Unmarshal jsonBytes devfileIndex in
                        match err with
                        | Some err =>
                            (w, ([], Some (Errorf_w
                                             ("unable to unmarshal the devfile index.json from "
                                                +:+ indexLink +:+ ": ") err)))
                        | None => (w, createRegistryDevfiles registry devfileIndex)
                        end
                    end
                | None => (w, createRegistryDevfiles registry devfileIndex)
                end
            end
        end
    end.

(** The registry the stacks of [registry] are tagged with: [registry]
    itself, with its URL converted when it is a GitHub URL. *)
Definition taggedRegistry (registry : Registry) : Registry :=
  if Contains (URL registry) "github" then
    {| Name := Name registry;
       URL := (convertURL url_Parse_Host (URL registry)).1;
       Secure := Secure registry |}
  else registry.

End GetRegistryStacks.

Section Static.

(** [getRegistryStacks] in a world that does not change while the
    registries are read: the external calls are functions of their
    arguments alone. *)
Variable url_Parse_Host : string → string * option error.
Variable GetRegistryIndex : string → unit → unit * (list Schema * option error).
Variable IsSecure : string → bool.
Variable keyring_Get : string → string → string * option error.
Variable CredentialPrefix : string.
Variable RegistryUser : string.
Variable HTTPGetRequest :
  HTTPRequestParams → Z → unit → unit * (string * option error).
Variable GetRegistryCacheTime : Z.
Variable json_Unmarshal : string → list Schema → list Schema * option error.
Variable CleanDefaultHTTPCacheDir : unit → unit * option error.
Variable log_Warning : string → unit → unit.

Definition staticStacks (registry : Registry)
  : list DevfileStack * option error :=
  (getRegistryStacks url_Parse_Host GetRegistryIndex IsSecure keyring_Get
     CredentialPrefix RegistryUser HTTPGetRequest GetRegistryCacheTime
     json_Unmarshal CleanDefaultHTTPCacheDir log_Warning registry tt).2.

End Static.

End registryIndex.

(** The warning [ListDevfileStacks] prints for a registry, if any. *)
Module RegistryWarnings.
Import registry.

Definition warningOf
    (getRegistryStacks : Registry → list DevfileStack * option error)
    (reg : Registry) : option string :=
  match (getRegistryStacks reg).2 with
  | Some err => Some (warningText reg err)
  | None => None
  end.

End RegistryWarnings.

(** ** Port pairs of the [dev] command ([pkg/odo/cli/dev]) *)

Module dev.

(** A Go [int] has 64 bits; [port++] wraps around at the largest one. *)
Definition maxInt : Z := (2 ^ 63 - 1)%Z.
Definition minInt : Z := (- 2 ^ 63)%Z.

Definition int_incr (x : Z) : Z :=
  if decide (x = maxInt) then minInt else (x + 1)%Z.

(** [fmt.Sprintf("%d:%d", port, p)] *)
Definition Sprintf_d_d (port p : Z) : string := pretty port +:+ ":" +:+ pretty p.

(** [fmt.Sprintf(":%d", p)] *)
Definition Sprintf_d (p : Z) : string := ":" +:+ pretty p.

(** [portPairs[name] = append(portPairs[name], pair)]: a missing key
    reads as the nil slice. *)
Definition appendPair (name : string) (pair : string)
    (portPairs : gmap string (list string)) : gmap string (list string) :=
  <[name := default [] (portPairs !! name) ++ [pair]]> portPairs.

Section PortPairs.

(** [util.IsPortFree(port)]: whether a listener can be opened on the
    port; the function is not among the sources, and the ports that are
    free do not change during the call. *)
Variable IsPortFree : Z → bool.

(** The loop [for { if IsPortFree(port) { ...; break }; port++ }]: it
    ends at the first free port from [port] on.  [fuel] bounds the number
    of ports tried; [None] stands for a loop that has not ended within
    that bound. *)
Fixpoint firstFreePort (fuel : nat) (port : Z) : option Z :=
  match fuel with
  | 0 => None
  | S fuel' =>
      if IsPortFree port then Some port
      else firstFreePort fuel' (int_incr port)
  end.

(** The loop over the ports of one container. *)
Fixpoint portPairs_ports (fuel : nat) (name : string) (ports : list Z)
    (port : Z) (portPairs : gmap string (list string))
  : option (Z * gmap string (list string)) :=
  match ports with
  | [] => Some (port, portPairs)
  | p :: ports' =>
      let port := int_incr port in
      match firstFreePort fuel port with
      | None => None
      | Some port =>
          let pair := Sprintf_d_d port p in
          portPairs_ports fuel name ports' port (appendPair name pair portPairs)
      end
  end.

(** The loop over the containers.  [ceMap] lists the entries of the Go
    map in the order in which [range] visits them, which Go does not
    fix. *)
Fixpoint portPairs_containers (fuel : nat) (ceMap : list (string * list Z))
    (port : Z) (portPairs : gmap string (list string))
  : option (Z * gmap string (list string)) :=
  match ceMap with
  | [] => Some (port, portPairs)
  | (name, ports) :: ceMap' =>
      match portPairs_ports fuel name ports port portPairs with
      | None => None
      | Some (port, portPairs) =>
          portPairs_containers fuel ceMap' port portPairs
      end
  end.

(** [func portPairsFromContainerEndpoints(ceMap map[string][]int)
    map[string][]string] *)
Definition portPairsFromContainerEndpoints (fuel : nat)
    (ceMap : list (string * list Z)) : option (gmap string (list string)) :=
  let portPairs : gmap string (list string) := ∅ in
  let port : Z := 40000%Z in
  snd <$> portPairs_containers fuel ceMap port portPairs.

End PortPairs.

(** The inner loop of [randomPortPairsFromContainerEndpoints]. *)
Fixpoint randomPortPairs_ports (name : string) (ports : list Z)
    (portPairs : gmap string (list string)) : gmap string (list string) :=
  match ports with
  | [] => portPairs
  | p :: ports' =>
      let pair := Sprintf_d p in
      randomPortPairs_ports name ports' (appendPair name pair portPairs)
  end.

Fixpoint randomPortPairs_containers (ceMap : list (string * list Z))
    (portPairs : gmap string (list string)) : gmap string (list string) :=
  match ceMap with
  | [] => portPairs
  | (name, ports) :: ceMap' =>
      randomPortPairs_containers ceMap' (randomPortPairs_ports name ports portPairs)
  end.

(** [func randomPortPairsFromContainerEndpoints(ceMap map[string][]int)
    map[string][]string] *)
Definition randomPortPairsFromContainerEndpoints
    (ceMap : list (string * list Z)) : gmap string (list string) :=
  randomPortPairs_containers ceMap ∅.

(** The number of endpoints of the containers. *)
Definition endpoints (ceMap : list (string * list Z)) : nat :=
  length (concat ceMap.*2).

End dev.

(** Notions used to state what the port pairs are. *)
Module DevNotions.
Import dev.

(** A map entry after [new] was appended to it: untouched when nothing
    is appended, present otherwise. *)
Definition extend (new : list string) (old : option (list string))
  : option (list string) :=
  match new with
  | [] => old
  | _ :: _ => Some (default [] old ++ new)
  end.

(** A container appears in the result only if it has an endpoint. *)
Definition whenNonEmpty (pairs : list string) : option (list string) :=
  extend pairs None.

(** Each port of [locals] is the least free port above the one before
    it, the first one above [prev]. *)
Fixpoint leastFreeChain (IsPortFree : Z → bool) (prev : Z) (locals : list Z)
  : Prop :=
  match locals with
  | [] => True
  | l :: locals' =>
      (prev < l)%Z ∧ IsPortFree l = true ∧
      (∀ q, (prev < q < l)%Z → IsPortFree q = false) ∧
      leastFreeChain IsPortFree l locals'
  end.

(** The pairs of one container, given its local ports. *)
Definition pairsOf (entry : string * list Z) (locals : list Z)
  : string * list string :=
  (entry.1, zip_with Sprintf_d_d locals entry.2).

End DevNotions.

(** ** Samples *)

Module DevExamples.

(** Two containers, one without endpoints; port 40002 is taken. *)
Definition sampleFree (q : Z) : bool := negb (q =? 40002)%Z.

Definition sampleContainers : list (string * list Z) :=
  [("web", [3000; 3001]%Z); ("db", [])].

(** A listener can be opened on the ports up to 65535 that are not
    taken; port 40002 is taken. *)
Definition listenerFree (q : Z) : bool :=
  (q <=? 65535)%Z && negb (q =? 40002)%Z.

End DevExamples.

Module RegistryIndexExamples.
Import GoStrings GoError registry registryIndex.

(** A parser that takes the host of a URL to be what stands between the
    second and the third slash. *)
Definition hostOf (URL : string) : string * option error :=
  (default "" (Split URL slash !! 2), None).

(** A secure GitHub registry, and a keyring that holds no credential. *)
Definition secureRegistry : Registry :=
  {| Name := "mine"; URL := "https://github.com/devfile/registry";
     Secure := true |}.

Definition emptyKeyring (service user : string) : string * option error :=
  ("", Some (errorString "secret not found in keyring")).

Definition noIndex (URL : string) (w : unit)
  : unit * (list Schema * option error) :=
  (w, ([], Some (errorString "no index"))).

Definition noDownload (request : HTTPRequestParams) (cacheTime : Z) (w : unit)
  : unit * (string * option error) :=
  (w, ("", Some (errorString "no network"))).

Definition noJSON (jsonBytes : string) (devfileIndex : list Schema)
  : list Schema * option error :=
  (devfileIndex, Some (errorString "unexpected end of JSON input")).

Definition cleanCache (w : unit) : unit * option error := (w, None).

Definition logNothing (message : string) (w : unit) : unit := w.

End RegistryIndexExamples.

(** * Facts *)

(** ** Facts about errors *)

Module GoErrorFacts.

Lemma prefix_app (s t : string) : String.prefix s (s +:+ t) = true.
Proof.
  induction s as [|a s IH]; simpl.
  - by destruct t.
  - destruct (Ascii.ascii_dec a a) as [_|Hne]; [exact IH | by destruct Hne].
Qed.

Lemma Errorf_w_prefix prefix err :
  String.prefix prefix (Error (Errorf_w prefix err)) = true.
Proof. apply prefix_app. Qed.

Lemma Errorf_w_Unwrap prefix err : Unwrap (Errorf_w prefix err) = Some err.
Proof. reflexivity. Qed.

End GoErrorFacts.

(** ** Facts about the scheduler *)

Module SchedulerFacts.
Import Scheduler.

Lemma pick_order_perm fuel choices pending :
  fuel = length pending → pick_order fuel choices pending ≡ₚ pending.
Proof.
  revert choices pending.
  induction fuel as [|fuel IH]; intros choices pending Hlen.
  - by destruct pending.
  - simpl.
    assert (Hk : hd 0 choices `mod` length pending < length pending).
    { apply Nat.mod_upper_bound. rewrite <- Hlen. lia. }
    destruct (lookup_lt_is_Some_2 _ _ Hk) as [i Hi].
    rewrite Hi.
    etrans; [|symmetry; exact (delete_Permutation pending _ i Hi)].
    constructor. apply IH.
    rewrite length_delete; [|eauto]. lia.
Qed.

Lemma order_perm choices n : order choices n ≡ₚ seq 0 n.
Proof. apply pick_order_perm. by rewrite length_seq. Qed.

Lemma order_length choices n : length (order choices n) = n.
Proof. by rewrite (Permutation_length (order_perm choices n)), length_seq. Qed.

Lemma order_NoDup choices n : NoDup (order choices n).
Proof. rewrite (order_perm choices n). apply NoDup_seq. Qed.

Lemma order_lt choices n i : i ∈ order choices n → i < n.
Proof.
  rewrite (order_perm choices n), elem_of_seq. lia.
Qed.

(** Every order of the pending units is drawn by some list of choices:
    the model leaves no schedule out. *)
Lemma pick_order_complete (ord pending : list nat) :
  ord ≡ₚ pending →
  ∃ choices, pick_order (length pending) choices pending = ord.
Proof.
  revert pending. induction ord as [|i ord IH]; intros pending Hp.
  - apply Permutation_nil_l in Hp. subst pending. by exists [].
  - assert (Hin : i ∈ pending) by (rewrite <- Hp; apply list_elem_of_here).
    apply list_elem_of_lookup in Hin as [k Hk].
    pose proof (lookup_lt_Some _ _ _ Hk) as Hlt.
    destruct (IH (delete k pending)) as [choices Hc].
    { apply (Permutation_cons_inv (a := i)).
      etrans; [exact Hp|]. by apply delete_Permutation. }
    rewrite length_delete in Hc by eauto.
    exists (k :: choices).
    destruct (length pending) as [|n] eqn:Hn; [lia|].
    cbn [pick_order hd tl]. rewrite Hn, Nat.mod_small by done.
    rewrite Hk. f_equal. by replace (S n - 1) with n in Hc by lia.
Qed.

Lemma order_complete (n : nat) (ord : list nat) :
  ord ≡ₚ seq 0 n → ∃ choices, order choices n = ord.
Proof.
  intros Hp. destruct (pick_order_complete ord (seq 0 n) Hp) as [choices Hc].
  exists choices. unfold order. by rewrite length_seq in Hc.
Qed.

End SchedulerFacts.

(** ** Facts about the task runner *)

Module TaskRunnerFacts.
Import Util.

Section Runner.
Context {St : Type}.

Lemma launch_cons (i : nat) (ord : list nat) (ts : list (ConcurrentTask St))
    (st : St) (ch : errChan) :
  launch (i :: ord) ts st ch =
  match ts !! i with
  | Some t => launch ord ts (ToRun t st ch).1 (ToRun t st ch).2
  | None => launch ord ts st ch
  end.
Proof.
  simpl. destruct (ts !! i) as [t|]; [|done]. by destruct (ToRun t st ch).
Qed.

Lemma launch_app (ord1 ord2 : list nat) (ts : list (ConcurrentTask St))
    (st : St) (ch : errChan) :
  launch (ord1 ++ ord2) ts st ch =
  let '(st', ch') := launch ord1 ts st ch in launch ord2 ts st' ch'.
Proof.
  revert st ch. induction ord1 as [|i ord1 IH]; intros st ch; simpl; [done|].
  destruct (ts !! i) as [t|]; [|apply IH].
  destruct (ToRun t st ch) as [st' ch']. apply IH.
Qed.

Lemma Add_Normal (ct : ConcurrentTasks St) (task : ConcurrentTask St) :
  started ct = false → length (tasks ct) < capacity ct →
  Add ct task = Normal {| capacity := capacity ct;
                          tasks := tasks ct ++ [task];
                          started := false |}.
Proof.
  intros Hs Hlt. unfold Add. rewrite Hs. by case_decide; [|lia].
Qed.

Lemma forRange_Add {A : Type} (mk : A → ConcurrentTask St) (l : list A)
    (ct : ConcurrentTasks St) :
  started ct = false → length (tasks ct) + length l ≤ capacity ct →
  forRange l ct (λ x ct, Add ct (mk x)) =
  Normal {| capacity := capacity ct;
            tasks := tasks ct ++ (mk <$> l);
            started := false |}.
Proof.
  revert ct. induction l as [|x l IH]; intros ct Hs Hle; simpl in *.
  - destruct ct as [c ts s]; simpl in *; subst. by rewrite app_nil_r.
  - rewrite Add_Normal by (done || lia). simpl.
    rewrite IH; simpl; [|done|rewrite length_app; simpl; lia].
    by rewrite <- app_assoc.
Qed.

Lemma forRangeIndexed_Add {A : Type} (mk : nat → A → ConcurrentTask St)
    (i : nat) (l : list A) (ct : ConcurrentTasks St) :
  started ct = false → length (tasks ct) + length l ≤ capacity ct →
  forRangeIndexed i l ct (λ j x ct, Add ct (mk j x)) =
  Normal {| capacity := capacity ct;
            tasks := tasks ct ++ imap (λ j, mk (i + j)) l;
            started := false |}.
Proof.
  revert i ct. induction l as [|x l IH]; intros i ct Hs Hle; simpl in *.
  - destruct ct as [c ts s]; simpl in *; subst. by rewrite app_nil_r.
  - rewrite Add_Normal by (done || lia). simpl.
    rewrite IH; simpl; [|done|rewrite length_app; simpl; lia].
    rewrite <- app_assoc. simpl. rewrite Nat.add_0_r.
    rewrite (imap_ext (λ j, mk (S (i + j))) ((λ j, mk (i + j)) ∘ S) l); [done|].
    intros j y _. simpl. by rewrite Nat.add_succ_r.
Qed.

(** A unit that sends nothing leaves the channel as it found it. *)
Lemma launch_silent (ord : list nat) (ts : list (ConcurrentTask St))
    (st : St) (ch : errChan) :
  (∀ i t st ch, ts !! i = Some t → (ToRun t st ch).2 = ch) →
  (launch ord ts st ch).2 = ch.
Proof.
  intros Hsilent. revert st ch.
  induction ord as [|i ord IH]; intros st ch; simpl; [done|].
  destruct (ts !! i) as [t|] eqn:Hi; [|apply IH].
  specialize (Hsilent i t st ch Hi).
  destruct (ToRun t st ch) as [st' ch']. simpl in Hsilent. subst ch'. apply IH.
Qed.

(** The units that have finished when [Run] returns ran first; the
    others follow. *)
Lemma untilFirstError_prefix (ord : list nat) (ts : list (ConcurrentTask St))
    (st : St) (ch : errChan) :
  ∃ rest, ord = untilFirstError ord ts st ch ++ rest.
Proof.
  revert st ch. induction ord as [|i ord IH]; intros st ch; [by exists []|].
  simpl. destruct (ts !! i) as [t|].
  - destruct (ToRun t st ch) as [st' [|e ch']].
    + destruct (IH st' []) as [rest Hrest]. exists rest. simpl. by f_equal.
    + by exists ord.
  - destruct (IH st ch) as [rest Hrest]. exists rest. simpl. by f_equal.
Qed.


(** The state [Run] hands on is the state at the moment it returned,
    after the units still running then have finished. *)
Lemma Run_after_return (choices : list nat) (ct ct' : ConcurrentTasks St)
    (st st' : St) (err : option error) :
  Run choices ct st = Normal (ct', st', err) →
  ∃ rest,
    Scheduler.order choices (length (tasks ct))
      = finishedAtReturn choices ct st ++ rest ∧
    st' = (launch rest (tasks ct) (stateAtReturn choices ct st)
             (launch (finishedAtReturn choices ct st) (tasks ct) st []).2).1.
Proof.
  unfold Run, stateAtReturn, finishedAtReturn.
  destruct (started ct); [done|].
  set (ord := Scheduler.order _ _).
  destruct (untilFirstError_prefix ord (tasks ct) st []) as [rest Hrest].
  intros Hrun. exists rest. split; [done|].
  revert Hrun. rewrite Hrest at 1. rewrite launch_app.
  destruct (launch (untilFirstError _ _ _ _) _ _ _) as [st1 ch1]. simpl.
  destruct (launch rest _ _ _) as [st2 ch2]. by intros [= _ <- _].
Qed.

End Runner.

Lemma Run_twice_panics {St : Type} (ct ct1 : ConcurrentTasks St)
    (choices choices' : list nat) (st st1 st' : St) (err : option error) :
  Run choices ct st = Normal (ct1, st1, err) →
  Run choices' ct1 st' = Panic "ConcurrentTasks: Run invoked twice".
Proof.
  unfold Run. destruct (started ct); [done|].
  destruct (launch _ _ _ _) as [st2 ch]. by intros [= <- _ _].
Qed.

End TaskRunnerFacts.

(** ** Facts about the parallel composite command *)

Module ParallelFacts.
Import Util Common Probes TaskRunnerFacts.

Section Parallel.
Context {World : Type}.

Lemma Execute_tasks_eq (p : parallelCompositeCommand World) (show : bool) :
  parallelCompositeCommand_Execute_tasks p show =
  Normal {| capacity := length (cmds p);
            tasks := unitOf (invoke (callExecute show)) <$> cmds p;
            started := false |}.
Proof.
  unfold parallelCompositeCommand_Execute_tasks.
  by rewrite (forRange_Add (unitOf (World := World) (invoke (callExecute show)))).
Qed.

Lemma UnExecute_tasks_eq (p : parallelCompositeCommand World) :
  parallelCompositeCommand_UnExecute_tasks p =
  Normal {| capacity := length (cmds p);
            tasks := unitOf (invoke callUnExecute) <$> cmds p;
            started := false |}.
Proof.
  unfold parallelCompositeCommand_UnExecute_tasks.
  by rewrite (forRange_Add (unitOf (World := World) (invoke callUnExecute))).
Qed.

(** Both methods, written out: the units run in the order the scheduler
    draws, and the first error on the channel is wrapped. *)
Lemma parallel_invoke_eq (meth : method) (p : parallelCompositeCommand World)
    (m : Machine World) :
  parallelCompositeCommand_invoke meth p m =
  let n := length (cmds p) in
  let r := launch (Scheduler.order (take n (sched m)) n)
             (unitOf (invoke meth) <$> cmds p)
             {| world := world m; sched := drop n (sched m) |} [] in
  Normal (p, r.1, Errorf_w parallelPrefix <$> head r.2).
Proof.
  destruct meth as [show|]; simpl.
  - unfold parallelCompositeCommand_Execute. rewrite Execute_tasks_eq. simpl.
    unfold Run. simpl. rewrite length_fmap.
    destruct (launch _ _ _ _) as [m' ch]. simpl. by destruct (head ch).
  - unfold parallelCompositeCommand_UnExecute. rewrite UnExecute_tasks_eq. simpl.
    unfold Run. simpl. rewrite length_fmap.
    destruct (launch _ _ _ _) as [m' ch]. simpl. by destruct (head ch).
Qed.

(** Neither method ever panics: the runner is created with room for
    exactly the units that are added, and is run once. *)
Lemma parallelCompositeCommand_Execute_returns
    (p : parallelCompositeCommand World) (show : bool) (m : Machine World) :
  ∃ m' err, parallelCompositeCommand_Execute p show m = Normal (p, m', err).
Proof.
  pose proof (parallel_invoke_eq (callExecute show) p m) as H. simpl in H.
  rewrite H. eauto.
Qed.

Lemma parallelCompositeCommand_UnExecute_returns
    (p : parallelCompositeCommand World) (m : Machine World) :
  ∃ m' err, parallelCompositeCommand_UnExecute p m = Normal (p, m', err).
Proof.
  pose proof (parallel_invoke_eq callUnExecute p m) as H. simpl in H.
  rewrite H. eauto.
Qed.

(** Seen through the interface, the composite behaves as its methods. *)
Lemma newParallelCompositeCommand_Execute (cs : list (command World))
    (show : bool) (m : Machine World) :
  parallelCompositeCommand_Execute {| cmds := cs |} show m =
  Normal ({| cmds := cs |},
          (Execute (newParallelCompositeCommand cs) show m).1,
          (Execute (newParallelCompositeCommand cs) show m).2).
Proof.
  destruct (parallelCompositeCommand_Execute_returns {| cmds := cs |} show m)
    as (m' & err & H).
  simpl. by rewrite H.
Qed.

Lemma newParallelCompositeCommand_UnExecute (cs : list (command World))
    (m : Machine World) :
  parallelCompositeCommand_UnExecute {| cmds := cs |} m =
  Normal ({| cmds := cs |},
          (UnExecute (newParallelCompositeCommand cs) m).1,
          (UnExecute (newParallelCompositeCommand cs) m).2).
Proof.
  destruct (parallelCompositeCommand_UnExecute_returns {| cmds := cs |} m)
    as (m' & err & H).
  simpl. by rewrite H.
Qed.

(** The machine at the moment either method returns, written out. *)
Lemma parallel_atReturn_eq (meth : method) (p : parallelCompositeCommand World)
    (m : Machine World) :
  parallelCompositeCommand_atReturn meth p m =
  let n := length (cmds p) in
  let units := unitOf (invoke meth) <$> cmds p in
  let m0 := {| world := world m; sched := drop n (sched m) |} in
  Normal (launch (untilFirstError (Scheduler.order (take n (sched m)) n)
                    units m0 [])
            units m0 []).1.
Proof.
  destruct meth as [show|]; simpl.
  - unfold parallelCompositeCommand_Execute_atReturn.
    rewrite Execute_tasks_eq. simpl.
    unfold stateAtReturn, finishedAtReturn. simpl. by rewrite length_fmap.
  - unfold parallelCompositeCommand_UnExecute_atReturn.
    rewrite UnExecute_tasks_eq. simpl.
    unfold stateAtReturn, finishedAtReturn. simpl. by rewrite length_fmap.
Qed.

End Parallel.

Section Observed.
Context {W : Type}.

Lemma invoke_probe (meth : method) (i : nat) (c : command W)
    (m : Machine (@Observed W)) :
  invoke meth (probe i c) m =
  let '(m', err) := invoke meth c (hide m) in (logged m m' (i, err), err).
Proof. by destruct meth. Qed.

Lemma probedFrom_length (k : nat) (cs : list (command W)) :
  length (probedFrom k cs) = length cs.
Proof. apply length_imap. Qed.

Lemma probedFrom_lookup (k i : nat) (cs : list (command W)) :
  probedFrom k cs !! i = probe (k + i) <$> cs !! i.
Proof. exact (list_lookup_imap (λ i, probe (k + i)) cs i). Qed.

Lemma probed_lookup (i : nat) (cs : list (command W)) :
  probed cs !! i = probe i <$> cs !! i.
Proof. apply (probedFrom_lookup 0). Qed.

Lemma probed_length (cs : list (command W)) : length (probed cs) = length cs.
Proof. apply probedFrom_length. Qed.

Lemma failures_cons (i : nat) (err : option error) (tr : Log) :
  failures ((i, err) :: tr) =
  match err with Some e => e :: failures tr | None => failures tr end.
Proof. by destruct err. Qed.

Lemma failures_nil (tr : Log) :
  failures tr = [] ↔ Forall (λ entry, entry.2 = None) tr.
Proof.
  induction tr as [|[i [e|]] tr IH]; simpl.
  - split; [constructor|done].
  - split; [done|]. by inversion 1.
  - change (failures ((i, None) :: tr)) with (failures tr). rewrite IH.
    split; [by constructor|by inversion 1].
Qed.

Lemma failures_elem (tr : Log) (e : error) :
  e ∈ failures tr ↔ ∃ i, (i, Some e) ∈ tr.
Proof.
  unfold failures. rewrite list_elem_of_omap. split.
  - intros [[i r] [Hin Hr]]. simpl in Hr. subst r. eauto.
  - intros [i Hin]. by exists (i, Some e).
Qed.

Lemma head_failures (tr : Log) (e : error) :
  head (failures tr) = Some e → ∃ i, (i, Some e) ∈ tr.
Proof.
  intros Hhd. apply failures_elem.
  destruct (failures tr) as [|e' l]; simplify_eq/=. apply list_elem_of_here.
Qed.

(** Running probed children in any order of valid indices logs exactly
    these indices, in that order, and sends exactly the errors logged. *)
Lemma launch_probed (meth : method) (cs : list (command W)) (ord : list nat)
    (m : Machine (@Observed W)) (ch : errChan) :
  Forall (λ i, i < length cs) ord →
  ∃ tr, let r := launch ord (unitOf (invoke meth) <$> probed cs) m ch in
        calls r.1 = calls m ++ tr ∧ tr.*1 = ord ∧ r.2 = ch ++ failures tr.
Proof.
  intros Hord. revert m ch.
  induction Hord as [|i ord Hi _ IH]; intros m ch; simpl.
  - exists []. by rewrite !app_nil_r.
  - destruct (lookup_lt_is_Some_2 cs i Hi) as [c Hc].
    rewrite list_lookup_fmap, probed_lookup, Hc.
    simpl. rewrite invoke_probe.
    destruct (invoke meth c (hide m)) as [m1 err].
    destruct err as [e|].
    + destruct (IH (logged m m1 (i, Some e)) (ch ++ [e])) as (tr & Hc1 & Ho & Hf).
      exists ((i, Some e) :: tr). simpl in *.
      rewrite Hc1, Hf. unfold calls at 1. simpl.
      rewrite <- !app_assoc. split_and!; [done|by f_equal|done].
    + destruct (IH (logged m m1 (i, None)) ch) as (tr & Hc1 & Ho & Hf).
      exists ((i, None) :: tr). simpl in *.
      rewrite Hc1, Hf. unfold calls at 1. simpl.
      rewrite <- !app_assoc. split_and!; [done|by f_equal|done].
Qed.

(** A parallel composite over probed children: it returns, its receiver
    is the one it was called on, the log gains one entry per child in the
    order drawn by the scheduler, and the error returned is the first
    logged error, wrapped. *)
Lemma parallel_probed (meth : method) (cs : list (command W))
    (m : Machine (@Observed W)) :
  ∃ tr m',
    parallelCompositeCommand_invoke meth {| cmds := probed cs |} m =
      Normal ({| cmds := probed cs |}, m',
              Errorf_w parallelPrefix <$> head (failures tr)) ∧
    calls m' = calls m ++ tr ∧
    tr.*1 = Scheduler.order (take (length cs) (sched m)) (length cs).
Proof.
  rewrite parallel_invoke_eq. simpl.
  rewrite probed_length.
  set (ord := Scheduler.order _ _).
  set (m0 := {| world := world m; sched := _ |}).
  destruct (launch_probed meth cs ord m0 []) as (tr & Hc & Ho & Hf).
  { apply Forall_forall. intros i Hi. by apply SchedulerFacts.order_lt in Hi. }
  simpl in *. exists tr, (launch ord (unitOf (invoke meth) <$> probed cs) m0 []).1.
  by rewrite Hf.
Qed.

Lemma hide_logged (m : Machine (@Observed W)) (m1 : Machine W)
    (entry : nat * option error) :
  hide (logged m m1 entry) = m1.
Proof. by destruct m1. Qed.

Lemma unitOf_probe_erase (meth : method) (i : nat) (c : command W)
    (m : Machine (@Observed W)) (ch : errChan) :
  hide (ToRun (unitOf (invoke meth) (probe i c)) m ch).1
    = (ToRun (unitOf (invoke meth) c) (hide m) ch).1 ∧
  (ToRun (unitOf (invoke meth) (probe i c)) m ch).2
    = (ToRun (unitOf (invoke meth) c) (hide m) ch).2.
Proof.
  unfold unitOf. cbn [ToRun]. rewrite invoke_probe.
  destruct (invoke meth c (hide m)) as [m1 [e|]]; cbn [fst snd];
    by rewrite hide_logged.
Qed.

(** Probes only observe: with the log hidden, the probed children run
    exactly as the children themselves. *)
Lemma launch_probed_erase (meth : method) (cs : list (command W))
    (ord : list nat) (m : Machine (@Observed W)) (ch : errChan) :
  launch ord (unitOf (invoke meth) <$> cs) (hide m) ch =
  (hide (launch ord (unitOf (invoke meth) <$> probed cs) m ch).1,
   (launch ord (unitOf (invoke meth) <$> probed cs) m ch).2).
Proof.
  revert m ch. induction ord as [|i ord IH]; intros m ch; [done|].
  rewrite !launch_cons, !list_lookup_fmap, probed_lookup.
  destruct (cs !! i) as [c|]; cbn [fmap option_fmap option_map]; [|apply IH].
  destruct (unitOf_probe_erase meth i c m ch) as [H1 H2].
  by rewrite <- IH, H1, H2.
Qed.

Lemma parallel_probed_erase (meth : method) (cs : list (command W))
    (m : Machine (@Observed W)) (p' : parallelCompositeCommand (@Observed W))
    (m' : Machine (@Observed W)) (err : option error) :
  parallelCompositeCommand_invoke meth {| cmds := probed cs |} m
    = Normal (p', m', err) →
  parallelCompositeCommand_invoke meth {| cmds := cs |} (hide m)
    = Normal ({| cmds := cs |}, hide m', err).
Proof.
  rewrite !parallel_invoke_eq. cbn [cmds]. rewrite probed_length.
  intros [= _ <- <-].
  pose proof (launch_probed_erase meth cs
                (Scheduler.order (take (length cs) (sched m)) (length cs))
                {| world := world m; sched := drop (length cs) (sched m) |} [])
    as Herase.
  cbn [hide world sched] in *.
  unfold hide at 1 in Herase. cbn [world sched] in Herase. by rewrite Herase.
Qed.

End Observed.

Section Traced.
Context {W : Type}.

Lemma invoke_trace (meth : method) (i : nat) (c : command W)
    (m : Machine (@Traced W)) :
  invoke meth (trace i c) m =
  let '(m', err) := invoke meth c (untraced m) in
  (noted m m' (meth, i, err), err).
Proof. by destruct meth. Qed.

Lemma tracedFrom_lookup (k i : nat) (cs : list (command W)) :
  tracedFrom k cs !! i = trace (k + i) <$> cs !! i.
Proof. exact (list_lookup_imap (λ i, trace (k + i)) cs i). Qed.

Lemma traced_lookup (i : nat) (cs : list (command W)) :
  traced cs !! i = trace i <$> cs !! i.
Proof. apply (tracedFrom_lookup 0). Qed.

Lemma traced_length (cs : list (command W)) : length (traced cs) = length cs.
Proof. apply length_imap. Qed.

Lemma journal_noted (m : Machine (@Traced W)) (m1 : Machine W)
    (entry : method * nat * option error) :
  journal (noted m m1 entry) = journal m ++ [entry].
Proof. reflexivity. Qed.

Lemma failed_nil (tr : Journal) :
  failed tr = [] ↔ Forall (λ entry, entry.2 = None) tr.
Proof.
  induction tr as [|[c [e|]] tr IH]; simpl.
  - split; [constructor|done].
  - split; [done|]. by inversion 1.
  - change (failed ((c, None) :: tr)) with (failed tr). rewrite IH.
    split; [by constructor|by inversion 1].
Qed.

(** What one unit over a traced child does: one journal entry, which
    names the method, and the error sent when there is one. *)
Lemma unitOf_trace (meth : method) (i : nat) (c : command W)
    (m : Machine (@Traced W)) (ch : errChan) :
  ∃ m1 err,
    invoke meth c (untraced m) = (m1, err) ∧
    ToRun (unitOf (invoke meth) (trace i c)) m ch =
      (noted m m1 (meth, i, err), ch ++ option_list err).
Proof.
  unfold unitOf. cbn [ToRun]. rewrite invoke_trace.
  destruct (invoke meth c (untraced m)) as [m1 [e|]]; do 2 eexists;
    (split; [done|]); simpl; by rewrite ?app_nil_r.
Qed.

(** Running traced children in any order of valid indices writes one
    entry per index, in that order, each naming the method, and sends
    exactly the errors written. *)
Lemma launch_traced (meth : method) (cs : list (command W)) (ord : list nat)
    (m : Machine (@Traced W)) (ch : errChan) :
  Forall (λ i, i < length cs) ord →
  ∃ tr, let r := launch ord (unitOf (invoke meth) <$> traced cs) m ch in
        journal r.1 = journal m ++ tr ∧ tr.*1 = callsOf meth ord ∧
        r.2 = ch ++ failed tr.
Proof.
  intros Hord. revert m ch.
  induction Hord as [|i ord Hi _ IH]; intros m ch.
  - exists []. simpl. by rewrite !app_nil_r.
  - destruct (lookup_lt_is_Some_2 cs i Hi) as [c Hc].
    rewrite launch_cons, list_lookup_fmap, traced_lookup, Hc.
    cbn [fmap option_fmap option_map].
    destruct (unitOf_trace meth i c m ch) as (m1 & err & _ & ->).
    cbn [fst snd].
    destruct (IH (noted m m1 (meth, i, err)) (ch ++ option_list err))
      as (tr & Hj & Ho & Hf).
    exists ((meth, i, err) :: tr). cbn zeta in *.
    rewrite Hj, Hf, journal_noted.
    rewrite <- !app_assoc. split_and!; [done|simpl; by f_equal|].
    by destruct err.
Qed.

(** The same run, cut at the moment [Run] returns: the entries written
    before, and those written by the units still running then.  When a
    child fails, the first failure is the last entry written before the
    return; when none fails, nothing is written after it. *)
Lemma return_traced (meth : method) (cs : list (command W)) (ord : list nat)
    (m : Machine (@Traced W)) :
  Forall (λ i, i < length cs) ord →
  ∃ before after,
    journal (launch (untilFirstError ord (unitOf (invoke meth) <$> traced cs) m [])
               (unitOf (invoke meth) <$> traced cs) m []).1
      = journal m ++ before ∧
    journal (launch ord (unitOf (invoke meth) <$> traced cs) m []).1
      = journal m ++ before ++ after ∧
    (before ++ after).*1 = callsOf meth ord ∧
    (launch ord (unitOf (invoke meth) <$> traced cs) m []).2
      = failed (before ++ after) ∧
    match failed (before ++ after) with
    | [] => after = []
    | e :: _ => ∃ pre i, before = pre ++ [(meth, i, Some e)] ∧
                         Forall (λ entry, entry.2 = None) pre
    end.
Proof.
  intros Hord. revert m.
  induction Hord as [|i ord Hi Hord IH]; intros m.
  - exists [], []. simpl. by rewrite app_nil_r.
  - destruct (lookup_lt_is_Some_2 cs i Hi) as [c Hc].
    cbn [untilFirstError].
    rewrite (launch_cons i ord), list_lookup_fmap, traced_lookup, Hc.
    cbn [fmap option_fmap option_map].
    destruct (unitOf_trace meth i c m []) as (m1 & err & _ & Hunit).
    destruct err as [e|]; cbn [option_list option_rect app] in Hunit;
      rewrite Hunit; cbn [fst snd].
    + destruct (launch_traced meth cs ord (noted m m1 (meth, i, Some e)) [e])
        as (tr & Hj & Ho & Hf); [done|].
      exists [(meth, i, Some e)], tr. cbn zeta in *.
      rewrite (launch_cons i []), list_lookup_fmap, traced_lookup, Hc.
      cbn [fmap option_fmap option_map]. rewrite Hunit. cbn [fst snd launch].
      rewrite Hj, Hf, journal_noted. split_and!.
      * done.
      * by rewrite <- app_assoc.
      * simpl. by f_equal.
      * done.
      * simpl. exists [], i. by split; [|constructor].
    + destruct (IH (noted m m1 (meth, i, None)))
        as (before & after & Hb & Ha & Ho & Hf & Hcut).
      exists ((meth, i, None) :: before), after.
      rewrite (launch_cons i (untilFirstError _ _ _ _)), list_lookup_fmap,
        traced_lookup, Hc.
      cbn [fmap option_fmap option_map]. rewrite Hunit. cbn [fst snd].
      rewrite Hb, Ha, Hf, journal_noted. split_and!.
      * by rewrite <- app_assoc.
      * by rewrite <- !app_assoc.
      * simpl. by f_equal.
      * done.
      * change (failed (((meth, i, None) :: before) ++ after))
          with (failed (before ++ after)).
        destruct (failed (before ++ after)) as [|e l]; [done|].
        destruct Hcut as (pre & k & -> & Hpre).
        exists ((meth, i, None) :: pre), k. split; [done|by constructor].
Qed.

(** A parallel composite over traced children: it returns, the journal
    gains one entry per child in the order drawn by the scheduler, each
    naming the method that was called; the entries split into those
    written when the method returns and those written after it. *)
Lemma parallel_traced (meth : method) (cs : list (command W))
    (m : Machine (@Traced W)) :
  ∃ before after m0 m',
    parallelCompositeCommand_invoke meth {| cmds := traced cs |} m =
      Normal ({| cmds := traced cs |}, m',
              Errorf_w parallelPrefix <$> head (failed (before ++ after))) ∧
    parallelCompositeCommand_atReturn meth {| cmds := traced cs |} m = Normal m0 ∧
    journal m0 = journal m ++ before ∧
    journal m' = journal m0 ++ after ∧
    (before ++ after).*1 =
      callsOf meth (Scheduler.order (take (length cs) (sched m)) (length cs)) ∧
    match failed (before ++ after) with
    | [] => after = []
    | e :: _ => ∃ pre i, before = pre ++ [(meth, i, Some e)] ∧
                         Forall (λ entry, entry.2 = None) pre
    end.
Proof.
  rewrite parallel_invoke_eq, parallel_atReturn_eq. cbn [cmds].
  rewrite traced_length.
  set (ord := Scheduler.order _ _).
  set (m1 := {| world := world m; sched := _ |}).
  destruct (return_traced meth cs ord m1) as (before & after & Hb & Ha & Ho & Hf & Hcut).
  { apply Forall_forall. intros i Hi. by apply SchedulerFacts.order_lt in Hi. }
  exists before, after. do 2 eexists. cbn zeta.
  split_and!; [by rewrite Hf|done|exact Hb| |done|done].
  rewrite Ha, Hb. by rewrite <- app_assoc.
Qed.

Lemma untraced_noted (m : Machine (@Traced W)) (m1 : Machine W)
    (entry : method * nat * option error) :
  untraced (noted m m1 entry) = m1.
Proof. by destruct m1. Qed.

(** The journal only observes: with it hidden, the traced children run
    exactly as the children themselves. *)
Lemma launch_traced_erase (meth : method) (cs : list (command W))
    (ord : list nat) (m : Machine (@Traced W)) (ch : errChan) :
  launch ord (unitOf (invoke meth) <$> cs) (untraced m) ch =
  (untraced (launch ord (unitOf (invoke meth) <$> traced cs) m ch).1,
   (launch ord (unitOf (invoke meth) <$> traced cs) m ch).2).
Proof.
  revert m ch. induction ord as [|i ord IH]; intros m ch; [done|].
  rewrite !launch_cons, !list_lookup_fmap, traced_lookup.
  destruct (cs !! i) as [c|]; cbn [fmap option_fmap option_map]; [|apply IH].
  destruct (unitOf_trace meth i c m ch) as (m1 & err & Hc & ->).
  cbn [fst snd]. rewrite <- IH, untraced_noted.
  unfold unitOf. cbn [ToRun]. rewrite Hc. by destruct err; rewrite ?app_nil_r.
Qed.

Lemma parallel_traced_erase (meth : method) (cs : list (command W))
    (m : Machine (@Traced W)) (p' : parallelCompositeCommand (@Traced W))
    (m' : Machine (@Traced W)) (err : option error) :
  parallelCompositeCommand_invoke meth {| cmds := traced cs |} m
    = Normal (p', m', err) →
  parallelCompositeCommand_invoke meth {| cmds := cs |} (untraced m)
    = Normal ({| cmds := cs |}, untraced m', err).
Proof.
  rewrite !parallel_invoke_eq. cbn [cmds]. rewrite traced_length.
  intros [= _ <- <-].
  pose proof (launch_traced_erase meth cs
                (Scheduler.order (take (length cs) (sched m)) (length cs))
                {| world := world m; sched := drop (length cs) (sched m) |} [])
    as Herase.
  cbn [untraced world sched] in *.
  unfold untraced at 1 in Herase. cbn [world sched] in Herase. by rewrite Herase.
Qed.

End Traced.

End ParallelFacts.

(** ** The parallel composite command: the properties *)

Module ParallelComposite.
Import Util Common Probes TaskRunnerFacts ParallelFacts.

(** C1.  When at least two children of a parallel composite fail, with
    distinct errors, [Execute] returns one error: the prefix followed by
    the message of one error [e], wrapping exactly [e], where [e] is an
    error some child returned in this run (the first one sent).  Nothing
    else is wrapped: [e] itself is the child's error, not an aggregate. *)
Theorem parallel_Execute_returns_one_child_error {W : Type}
    (cs : list (command W)) (show : bool) (m : Machine (@Observed W))
    (p' : parallelCompositeCommand (@Observed W)) (m' : Machine (@Observed W))
    (err : option error) (tr : Log) (i j : nat) (ei ej : error) :
  parallelCompositeCommand_Execute {| cmds := probed cs |} show m
    = Normal (p', m', err) →
  calls m' = calls m ++ tr →
  i ≠ j → (i, Some ei) ∈ tr → (j, Some ej) ∈ tr → ei ≠ ej →
  parallelCompositeCommand_Execute {| cmds := cs |} show (hide m)
    = Normal ({| cmds := cs |}, hide m', err) ∧
  ∃ k e,
    (k, Some e) ∈ tr ∧
    head (failures tr) = Some e ∧
    err = Some (wrapError ("parallel command execution failed: " +:+ Error e) e) ∧
    (Unwrap <$> err) = Some (Some e).
Proof.
  intros Hrun Hcalls _ Hi _ _.
  split; [exact (parallel_probed_erase (callExecute show) cs m p' m' err Hrun)|].
  destruct (parallel_probed (callExecute show) cs m) as (tr0 & m0 & Heq & Hc0 & _).
  simpl in Heq. rewrite Heq in Hrun. simplify_eq.
  rewrite Hc0 in Hcalls. apply app_inv_head in Hcalls. subst tr0.
  assert (Hin : ei ∈ failures tr) by (apply failures_elem; eauto).
  destruct (failures tr) as [|e l] eqn:Hf; [by apply elem_of_nil in Hin|].
  destruct (head_failures tr e) as [k Hk]; [by rewrite Hf|].
  by exists k, e.
Qed.

Lemma parallel_Execute_returns_one_child_error_witness :
  parallelCompositeCommand_Execute {| cmds := Examples.twoFailing |} false
    {| world := tt; sched := [1] |}
    = Normal ({| cmds := Examples.twoFailing |},
              {| world := tt; sched := [] |},
              Some (wrapError "parallel command execution failed: b"
                      (errorString "b"))) ∧
  ∃ k e,
    (k, Some e) ∈ [(1, Some (errorString "b")); (0, Some (errorString "a"))] ∧
    head (failures [(1, Some (errorString "b")); (0, Some (errorString "a"))])
      = Some e ∧
    Some (wrapError "parallel command execution failed: b" (errorString "b"))
      = Some (wrapError ("parallel command execution failed: " +:+ Error e) e) ∧
    (Unwrap <$> Some (wrapError "parallel command execution failed: b"
                        (errorString "b"))) = Some (Some e).
Proof.
  apply (parallel_Execute_returns_one_child_error
           (W := unit) Examples.twoFailing false (Examples.start [1])
           {| cmds := probed Examples.twoFailing |}
           {| world := (tt, [(1, Some (errorString "b"));
                             (0, Some (errorString "a"))]);
              sched := [] |}
           _ _ 0 1 (errorString "a") (errorString "b")).
  - vm_compute. reflexivity.
  - vm_compute. reflexivity.
  - lia.
  - apply list_elem_of_further, list_elem_of_here.
  - apply list_elem_of_here.
  - discriminate.
Defined.

(** C2.  [Execute] creates a runner whose capacity is the number of
    children and adds one unit per child, the i-th for the i-th child;
    that unit, run on any state and channel, sends exactly the error of
    the child's [Execute] when there is one and sends nothing otherwise.
    It is this runner that [Execute] runs, once, with the choices the
    scheduler hands it, and whose error it wraps. *)
Theorem parallel_Execute_registers_one_unit_per_child {W : Type}
    (p : parallelCompositeCommand W) (show : bool) :
  ∃ commandExecs,
    parallelCompositeCommand_Execute_tasks p show = Normal commandExecs ∧
    capacity commandExecs = length (cmds p) ∧
    length (tasks commandExecs) = length (cmds p) ∧
    started commandExecs = false ∧
    (∀ i cmd, cmds p !! i = Some cmd →
      ∃ t, tasks commandExecs !! i = Some t ∧
        ∀ m errChannel,
          match Execute cmd show m with
          | (m', Some err) => ToRun t m errChannel = (m', errChannel ++ [err])
          | (m', None) => ToRun t m errChannel = (m', errChannel)
          end) ∧
    ∀ m,
      parallelCompositeCommand_Execute p show m =
      match Run (take (length (cmds p)) (sched m)) commandExecs
              {| world := world m; sched := drop (length (cmds p)) (sched m) |}
      with
      | Normal (_, m', Some err) =>
          Normal (p, m', Some (wrapError ("parallel command execution failed: "
                                            +:+ Error err) err))
      | Normal (_, m', None) => Normal (p, m', None)
      | Panic msg => Panic msg
      end.
Proof.
  eexists. split; [apply Execute_tasks_eq|]. simpl.
  split; [done|]. split; [by rewrite length_fmap|]. split; [done|]. split.
  - intros i cmd Hi. exists (unitOf (invoke (callExecute show)) cmd).
    split; [by rewrite list_lookup_fmap, Hi|].
    intros m errChannel. simpl.
    by destruct (Execute cmd show m) as [m' [err|]].
  - intros m. unfold parallelCompositeCommand_Execute.
    rewrite Execute_tasks_eq. simpl.
    destruct (Run _ _ _) as [[[ct m'] [err|]]|msg]; done.
Qed.

(** C3.  Whenever [Execute] or [UnExecute] of a parallel composite
    returns an error, its message starts with the fixed prefix, and
    unwrapping it gives an error that a child returned in this run. *)
Theorem parallel_error_has_prefix_and_wraps_child_error {W : Type}
    (meth : method) (cs : list (command W)) (m : Machine (@Observed W))
    (p' : parallelCompositeCommand (@Observed W)) (m' : Machine (@Observed W))
    (w : error) (tr : Log) :
  parallelCompositeCommand_invoke meth {| cmds := probed cs |} m
    = Normal (p', m', Some w) →
  calls m' = calls m ++ tr →
  parallelCompositeCommand_invoke meth {| cmds := cs |} (hide m)
    = Normal ({| cmds := cs |}, hide m', Some w) ∧
  String.prefix "parallel command execution failed: " (Error w) = true ∧
  ∃ i e, (i, Some e) ∈ tr ∧ Unwrap w = Some e ∧
         Error w = "parallel command execution failed: " +:+ Error e.
Proof.
  intros Hrun Hcalls.
  split; [exact (parallel_probed_erase meth cs m p' m' (Some w) Hrun)|].
  destruct (parallel_probed meth cs m) as (tr0 & m0 & Heq & Hc0 & _).
  rewrite Heq in Hrun. simplify_eq.
  rewrite Hc0 in Hcalls. apply app_inv_head in Hcalls. subst tr0.
  destruct (head (failures tr)) as [e|] eqn:Hhd; simplify_eq/=.
  split; [apply (GoErrorFacts.prefix_app parallelPrefix)|].
  destruct (head_failures tr e Hhd) as [i Hi]. by exists i, e.
Qed.

Lemma parallel_error_has_prefix_and_wraps_child_error_witness :
  parallelCompositeCommand_UnExecute {| cmds := Examples.oneFailing |}
    {| world := tt; sched := [] |}
    = Normal ({| cmds := Examples.oneFailing |},
              {| world := tt; sched := [] |},
              Some (wrapError "parallel command execution failed: b"
                      (errorString "b"))) ∧
  String.prefix "parallel command execution failed: "
    (Error (wrapError "parallel command execution failed: b" (errorString "b")))
    = true ∧
  ∃ i e, (i, Some e) ∈ [(0, None); (1, Some (errorString "b")); (2, None)] ∧
         Unwrap (wrapError "parallel command execution failed: b"
                   (errorString "b")) = Some e ∧
         Error (wrapError "parallel command execution failed: b"
                  (errorString "b"))
           = "parallel command execution failed: " +:+ Error e.
Proof.
  apply (parallel_error_has_prefix_and_wraps_child_error
           (W := unit) callUnExecute Examples.oneFailing (Examples.start [])
           {| cmds := probed Examples.oneFailing |}
           {| world := (tt, [(0, None); (1, Some (errorString "b")); (2, None)]);
              sched := [] |}).
  - vm_compute. reflexivity.
  - vm_compute. reflexivity.
Defined.

(** Which of two failing children is reported depends on the scheduler:
    both are possible. *)
Lemma parallel_Execute_either_error_possible :
  (∃ p' m',
     parallelCompositeCommand_Execute
       {| cmds := probed Examples.twoFailing |} false (Examples.start [0])
     = Normal (p', m', Some (wrapError "parallel command execution failed: a"
                               (errorString "a")))) ∧
  (∃ p' m',
     parallelCompositeCommand_Execute
       {| cmds := probed Examples.twoFailing |} false (Examples.start [1])
     = Normal (p', m', Some (wrapError "parallel command execution failed: b"
                               (errorString "b")))).
Proof. split; do 2 eexists; vm_compute; reflexivity. Qed.

(** C4.  [Execute] of a parallel composite returns, and in the run the
    [Execute] of every child is invoked exactly once, with the flag
    [Execute] was given, and no other method of a child is: the journal
    gains the entries of these calls, in some order, whatever order the
    scheduler draws.  The result is nil exactly when every child
    returned nil.  When it is nil, every child has been invoked by the
    time [Execute] returns.  When it is an error, [Execute] returns as
    soon as the first child has failed: the journal then ends with that
    failure, which is the error returned, wrapped, and the children not
    yet invoked are invoked after the return, by the units still
    running. *)
Theorem parallel_Execute_runs_every_child {W : Type}
    (cs : list (command W)) (show : bool) (m : Machine (@Traced W)) :
  ∃ before after m0 m' err,
    parallelCompositeCommand_Execute {| cmds := traced cs |} show m
      = Normal ({| cmds := traced cs |}, m', err) ∧
    parallelCompositeCommand_Execute {| cmds := cs |} show (untraced m)
      = Normal ({| cmds := cs |}, untraced m', err) ∧
    parallelCompositeCommand_Execute_atReturn {| cmds := traced cs |} show m
      = Normal m0 ∧
    journal m0 = journal m ++ before ∧
    journal m' = journal m0 ++ after ∧
    (before ++ after).*1 ≡ₚ callsOf (callExecute show) (seq 0 (length cs)) ∧
    (err = None ↔ Forall (λ entry, entry.2 = None) (before ++ after)) ∧
    (err = None → after = []) ∧
    (∀ w, err = Some w →
       ∃ pre i e,
         before = pre ++ [(callExecute show, i, Some e)] ∧
         Forall (λ entry, entry.2 = None) pre ∧
         w = wrapError ("parallel command execution failed: " +:+ Error e) e).
Proof.
  destruct (parallel_traced (callExecute show) cs m)
    as (before & after & m0 & m' & Heq & Hret & Hb & Ha & Ho & Hcut).
  exists before, after, m0, m',
    (Errorf_w parallelPrefix <$> head (failed (before ++ after))).
  split_and!; [done| |done|done|done| | | |].
  - exact (parallel_traced_erase (callExecute show) cs m _ _ _ Heq).
  - rewrite Ho. unfold callsOf. apply fmap_Permutation, SchedulerFacts.order_perm.
  - rewrite <- failed_nil. by destruct (failed (before ++ after)).
  - intros Herr. by destruct (failed (before ++ after)).
  - intros w Herr. destruct (failed (before ++ after)) as [|e l]; [done|].
    destruct Hcut as (pre & i & -> & Hpre). simpl in Herr. simplify_eq.
    by exists pre, i, e.
Qed.

(** Execute can return while a child has not been invoked yet: with a
    first child that fails and the scheduler running it first, the
    second child is invoked only after the return. *)
Lemma parallel_Execute_returns_before_all_children_ran :
  parallelCompositeCommand_Execute_atReturn
    {| cmds := traced [Examples.failing "a"; Examples.succeeding] |} false
    {| world := (tt, []); sched := [0] |}
  = Normal {| world := (tt, [(callExecute false, 0, Some (errorString "a"))]);
              sched := [] |} ∧
  parallelCompositeCommand_Execute
    {| cmds := traced [Examples.failing "a"; Examples.succeeding] |} false
    {| world := (tt, []); sched := [0] |}
  = Normal ({| cmds := traced [Examples.failing "a"; Examples.succeeding] |},
            {| world := (tt, [(callExecute false, 0, Some (errorString "a"));
                              (callExecute false, 1, None)]);
               sched := [] |},
            Some (wrapError "parallel command execution failed: a"
                    (errorString "a"))).
Proof. split; vm_compute; reflexivity. Qed.

End ParallelComposite.

(** ** The sequential composite command, the runner's misuse errors and
       the shape of commands *)

Module SequentialFacts.
Import Util Common Probes ParallelFacts.

Lemma tracedFrom_cons {W : Type} (k : nat) (c : command W) (cs : list (command W)) :
  tracedFrom k (c :: cs) = trace k c :: tracedFrom (S k) cs.
Proof.
  unfold tracedFrom. simpl. rewrite Nat.add_0_r. f_equal.
  apply imap_ext. intros i x _. simpl. by rewrite Nat.add_succ_r.
Qed.

(** Children called in declaration order until one fails: the journal
    gains entries for the indices [k], [k+1], ... without a gap, each
    naming the method called; on failure the failing child is the last
    one entered and its error is the result. *)
Lemma eachInOrder_traced {W : Type} (meth : method) (k : nat)
    (cs : list (command W)) (m : Machine (@Traced W)) :
  ∃ tr, let r := eachInOrder (invoke meth) (tracedFrom k cs) m in
    journal r.1 = journal m ++ tr ∧
    tr.*1 = callsOf meth (seq k (length tr)) ∧
    match r.2 with
    | Some e => ∃ pre, tr = pre ++ [(meth, k + length pre, Some e)] ∧
                       Forall (λ entry, entry.2 = None) pre ∧
                       length pre < length cs
    | None => length tr = length cs ∧ Forall (λ entry, entry.2 = None) tr
    end.
Proof.
  revert k m. induction cs as [|c cs IH]; intros k m.
  - exists []. simpl. rewrite app_nil_r. by repeat split.
  - rewrite tracedFrom_cons. simpl. rewrite invoke_trace.
    destruct (invoke meth c (untraced m)) as [m1 [e|]].
    + exists [(meth, k, Some e)]. simpl. split_and!; [done..|].
      exists []. simpl. rewrite Nat.add_0_r. split_and!; [done|constructor|lia].
    + destruct (IH (S k) (noted m m1 (meth, k, None))) as (tr & Hc & Ho & Hr).
      exists ((meth, k, None) :: tr). simpl in *. split_and!.
      * rewrite Hc, journal_noted. by rewrite <- app_assoc.
      * by f_equal.
      * destruct (eachInOrder _ _ _).2 as [e|].
        -- destruct Hr as (pre & -> & Hpre & Hlt).
           exists ((meth, k, None) :: pre). simpl.
           rewrite Nat.add_succ_r. split_and!; [done|by constructor|lia].
        -- destruct Hr as [Hlen Hall]. split; [by rewrite Hlen|by constructor].
Qed.

Lemma eachInOrder_traced_erase {W : Type} (meth : method) (k : nat)
    (cs : list (command W)) (m : Machine (@Traced W)) :
  eachInOrder (invoke meth) cs (untraced m) =
  (untraced (eachInOrder (invoke meth) (tracedFrom k cs) m).1,
   (eachInOrder (invoke meth) (tracedFrom k cs) m).2).
Proof.
  revert k m. induction cs as [|c cs IH]; intros k m; [done|].
  rewrite tracedFrom_cons. cbn [eachInOrder]. rewrite invoke_trace.
  destruct (invoke meth c (untraced m)) as [m1 [e|]]; cbn [fst snd].
  - by rewrite untraced_noted.
  - by rewrite <- (IH (S k)), untraced_noted.
Qed.

End SequentialFacts.

(** ** Facts about command trees held in memory *)

Module MemoryFacts.
Import Util Common Probes Memory TaskRunnerFacts ParallelFacts.

Section Memory.
Context {E : Type}.







End Memory.

End MemoryFacts.

Module Composite.
Import Util Common Probes TaskRunnerFacts ParallelFacts SequentialFacts.
Import Memory MemoryFacts MemoryExamples.

(** C5.  [Execute] of a sequential composite invokes the [Execute] of
    its children, with the flag it was given, in declaration order, each
    at most once and without a gap, and invokes no other method of a
    child.  If a child fails, that child is the last one invoked and its
    error is returned as it is; if none fails, every child was invoked
    and the result is nil. *)
Theorem sequential_Execute_in_order_until_first_failure {W : Type}
    (cs : list (command W)) (show : bool) (m : Machine (@Traced W)) :
  ∃ tr m' err,
    sequentialCompositeCommand_Execute {| seq_cmds := traced cs |} show m
      = ({| seq_cmds := traced cs |}, m', err) ∧
    sequentialCompositeCommand_Execute {| seq_cmds := cs |} show (untraced m)
      = ({| seq_cmds := cs |}, untraced m', err) ∧
    journal m' = journal m ++ tr ∧
    tr.*1 = callsOf (callExecute show) (seq 0 (length tr)) ∧
    match err with
    | Some e => ∃ pre, tr = pre ++ [(callExecute show, length pre, Some e)] ∧
                       Forall (λ entry, entry.2 = None) pre ∧
                       length pre < length cs
    | None => length tr = length cs ∧ Forall (λ entry, entry.2 = None) tr
    end.
Proof.
  destruct (eachInOrder_traced (callExecute show) 0 cs m) as (tr & Hc & Ho & Hr).
  pose proof (eachInOrder_traced_erase (callExecute show) 0 cs m) as Herase.
  unfold sequentialCompositeCommand_Execute. cbn [seq_cmds].
  fold (traced cs) in *.
  change (λ cmd : command Traced, Execute cmd show)
    with (invoke (World := @Traced W) (callExecute show)).
  change (λ cmd : command W, Execute cmd show)
    with (invoke (World := W) (callExecute show)).
  rewrite Herase.
  destruct (eachInOrder _ _ _) as [m' err]. simpl in *.
  by exists tr, m', err.
Qed.

(** A tree: two parallel children, then a third step.  The second
    parallel child fails, so the sequence stops after its first step and
    reports the wrapped error; the third step is not invoked. *)
Lemma sequential_of_parallel_sample (choices : list nat) :
  choices = [0; 0] ∨ choices = [1; 0] →
  sequentialCompositeCommand_Execute
    {| seq_cmds := probed
         [newParallelCompositeCommand [Examples.succeeding; Examples.failing "x"];
          Examples.succeeding] |}
    false (Examples.start choices)
  = ({| seq_cmds := probed
          [newParallelCompositeCommand [Examples.succeeding; Examples.failing "x"];
           Examples.succeeding] |},
     {| world := (tt, [(0, Some (wrapError "parallel command execution failed: x"
                                   (errorString "x")))]);
        sched := [] |},
     Some (wrapError "parallel command execution failed: x" (errorString "x"))).
Proof.
  intros [->| ->]; vm_compute; reflexivity.
Qed.

(** C6.  A parallel or a sequential composite without children returns
    nil and leaves the state as it was; a runner of capacity 0 launches
    no unit and [Run] returns nil with the state as it was. *)
Theorem zero_children_succeed_without_effect {World St : Type}
    (show : bool) (m : Machine World) (choices : list nat) (st : St) :
  parallelCompositeCommand_Execute {| cmds := [] |} show m
    = Normal ({| cmds := [] |}, m, None) ∧
  sequentialCompositeCommand_Execute {| seq_cmds := [] |} show m
    = ({| seq_cmds := [] |}, m, None) ∧
  launched choices (@NewConcurrentTasks St 0) = [] ∧
  ∃ ct, Run choices (@NewConcurrentTasks St 0) st = Normal (ct, st, None).
Proof.
  destruct m as [w s]. split_and!; [done..|]. by eexists.
Qed.

(** C7.  On a runner created with capacity [n] to which [n] units were
    added, adding one more panics at once: no runner comes back, so the
    unit is not dropped silently.  The runner can be run once; running it
    again panics. *)
Theorem runner_rejects_extra_unit_and_second_Run {St : Type}
    (units : list (ConcurrentTask St)) (extra : ConcurrentTask St)
    (choices choices' : list nat) (st st' : St) :
  ∃ ct,
    forRange units (NewConcurrentTasks (length units)) (λ task ct, Add ct task)
      = Normal ct ∧
    tasks ct = units ∧
    Add ct extra
      = Panic "ConcurrentTasks: more tasks than the declared capacity" ∧
    ∃ ct1 st1 err,
      Run choices ct st = Normal (ct1, st1, err) ∧
      Run choices' ct1 st' = Panic "ConcurrentTasks: Run invoked twice".
Proof.
  eexists. split.
  { apply (forRange_Add (λ task, task)); simpl; [done|lia]. }
  simpl. rewrite list_fmap_id. split; [done|]. split.
  - unfold Add. simpl. case_decide; [lia|done].
  - unfold Run at 1. simpl.
    destruct (launch _ _ _ _) as [st1 ch] eqn:Hl.
    by do 3 eexists.
Qed.




(** The memory is part of what the children act on: a child that is
    none of the three variants can change it, and the sequence that
    holds such a child does not keep its shape. *)
Lemma a_foreign_child_can_change_the_tree :
  slices (invoke (callExecute false) (sequentialAt clearingNodes 20)
            {| world := (tt, sampleMemory); sched := [] |}).1
  ≠ sampleMemory.
Proof.
  intros H. apply (f_equal (λ mem : Slices, mem !! 20)) in H.
  vm_compute in H. discriminate.
Qed.

End Composite.

(** ** Facts about the registry listing *)

Module RegistryFacts.
Import Util registry RegistryExamples TaskRunnerFacts.

Local Arguments retrieval : simpl never.

(** Without a name, the loop returns the configured registries from the
    last one to the first. *)
Lemma GetDevfileRegistries_loop_all (registryName : string)
    (registryList : list preference.Registry) (n : nat) (acc : list Registry) :
  n ≤ length registryList →
  GetDevfileRegistries_loop false registryName registryList n acc =
  acc ++ (fromPreference <$> reverse (take n registryList)).
Proof.
  revert acc. induction n as [|i IH]; intros acc Hn; simpl.
  - by rewrite app_nil_r.
  - destruct (lookup_lt_is_Some_2 registryList i) as [r Hr]; [lia|].
    rewrite Hr, IH by lia.
    rewrite (take_S_r _ _ _ Hr), reverse_app. simpl.
    by rewrite <- app_assoc.
Qed.

Lemma GetDevfileRegistries_all (registryList : list preference.Registry) :
  GetDevfileRegistries {| RegistryList := Some registryList |} ""
  = (fromPreference <$> reverse registryList, None).
Proof.
  unfold GetDevfileRegistries. simpl.
  by rewrite GetDevfileRegistries_loop_all, firstn_all.
Qed.

(** The registries of the sample configuration: all of them, last
    configured first; one by name; none for an unknown name or when no
    list is configured. *)
Lemma GetDevfileRegistries_sample :
  GetDevfileRegistries sampleClient "" = ([brokenRegistry; defaultRegistry], None) ∧
  GetDevfileRegistries sampleClient "default" = ([defaultRegistry], None) ∧
  GetDevfileRegistries sampleClient "missing" = ([], None) ∧
  GetDevfileRegistries {| RegistryList := None |} "" = ([], None).
Proof. by vm_compute. Qed.

Lemma fold_left_append {A : Type} (slices : list (list A)) (items : list A) :
  fold_left (λ items slice, items ++ slice) slices items = items ++ concat slices.
Proof.
  revert items. induction slices as [|s slices IH]; intros items; simpl.
  - by rewrite app_nil_r.
  - by rewrite IH, app_assoc.
Qed.

Section Listing.
Variable getRegistryStacks : Registry → list DevfileStack * option error.

Abbreviation retrievals regs := (imap (retrieval getRegistryStacks) regs).

Lemma retrievals_lookup (regs : list Registry) (i : nat) :
  retrievals regs !! i = retrieval getRegistryStacks i <$> regs !! i.
Proof. apply list_lookup_imap. Qed.

(** A retrieval never sends on the channel. *)
Lemma retrieval_silent (i : nat) (reg : Registry) (sh : Shared) (ch : errChan) :
  (ToRun (retrieval getRegistryStacks i reg) sh ch).2 = ch.
Proof.
  unfold retrieval. simpl. by destruct (getRegistryStacks reg) as [stacks [e|]].
Qed.

Lemma retrieval_slice (i : nat) (reg : Registry) (sh : Shared) (ch : errChan) :
  registrySlice (ToRun (retrieval getRegistryStacks i reg) sh ch).1 =
  if retrievalFails getRegistryStacks reg then registrySlice sh
  else <[i := (getRegistryStacks reg).1]> (registrySlice sh).
Proof.
  unfold retrievalFails, retrieval. simpl.
  by destruct (getRegistryStacks reg) as [stacks [e|]].
Qed.

Lemma retrieval_warnings (i : nat) (reg : Registry) (sh : Shared) (ch : errChan) :
  warnings (ToRun (retrieval getRegistryStacks i reg) sh ch).1 =
  match (getRegistryStacks reg).2 with
  | Some e => warnings sh ++ [warningText reg e]
  | None => warnings sh
  end.
Proof.
  unfold retrieval. simpl. by destruct (getRegistryStacks reg) as [stacks [e|]].
Qed.

Lemma launch_retrievals_silent (regs : list Registry) (ord : list nat)
    (sh : Shared) (ch : errChan) :
  (launch ord (retrievals regs) sh ch).2 = ch.
Proof.
  apply launch_silent. intros i t sh' ch' Ht.
  rewrite retrievals_lookup in Ht.
  destruct (regs !! i) as [reg|]; simplify_eq/=. apply retrieval_silent.
Qed.

(** The slice keeps its length, so the index a retrieval assigns to,
    which is below the number of registries, is always in range. *)
Lemma retrieval_index_in_range (regs : list Registry) (ord : list nat)
    (sh : Shared) (ch : errChan) :
  length (registrySlice (launch ord (retrievals regs) sh ch).1)
  = length (registrySlice sh) ∧
  ∀ i, is_Some (retrievals regs !! i) → i < length regs.
Proof.
  split.
  - revert sh ch. induction ord as [|i ord IH]; intros sh ch; [done|].
    rewrite launch_cons, retrievals_lookup.
    destruct (regs !! i) as [reg|]; cbn [fmap option_fmap option_map]; [|apply IH].
    rewrite IH, retrieval_slice.
    destruct (retrievalFails _ _); [done|apply length_insert].
  - intros i Hi. rewrite retrievals_lookup, fmap_is_Some in Hi.
    by apply lookup_lt_is_Some_1.
Qed.

(** Slot [j] after the launched retrievals ran: the stacks of registry
    [j] if its retrieval ran and succeeded, what it held before
    otherwise. *)
Lemma launch_retrievals_slot (regs : list Registry) (ord : list nat)
    (sh : Shared) (ch : errChan) (j : nat) (reg : Registry) :
  regs !! j = Some reg → j < length (registrySlice sh) →
  registrySlice (launch ord (retrievals regs) sh ch).1 !! j =
  if decide (j ∈ ord ∧ retrievalFails getRegistryStacks reg = false)
  then Some (getRegistryStacks reg).1
  else registrySlice sh !! j.
Proof.
  intros Hj. revert sh ch.
  induction ord as [|i ord IH]; intros sh ch Hlt.
  - cbn [launch fst]. case_decide as H; [|done].
    destruct H as [H _]. by apply elem_of_nil in H.
  - rewrite launch_cons, retrievals_lookup.
    destruct (decide (j = i)) as [->|Hne].
    + rewrite Hj. cbn [fmap option_fmap option_map].
      pose proof (retrieval_slice i reg sh ch) as Hs.
      rewrite IH; rewrite Hs.
      * destruct (retrievalFails getRegistryStacks reg) eqn:Hf.
        -- apply decide_ext. split; intros [_ ?]; done.
        -- rewrite list_lookup_insert_eq by done.
           rewrite (decide_True (P := i ∈ i :: ord ∧ false = false));
             [|split; [apply list_elem_of_here|done]].
           by case_decide.
      * destruct (retrievalFails getRegistryStacks reg);
          [done|by rewrite length_insert].
    + assert (Hext : ∀ x y : option (list DevfileStack),
                (if decide (j ∈ ord ∧ retrievalFails getRegistryStacks reg = false)
                 then x else y) =
                (if decide (j ∈ i :: ord ∧ retrievalFails getRegistryStacks reg = false)
                 then x else y)).
      { intros x y. apply decide_ext. rewrite elem_of_cons.
        split; [intros [? ?]; split; [by right|done]|].
        intros [[?|?] ?]; [done|by split]. }
      rewrite <- Hext.
      destruct (regs !! i) as [regi|]; cbn [fmap option_fmap option_map];
        [|by apply IH].
      pose proof (retrieval_slice i regi sh ch) as Hs.
      rewrite IH; rewrite Hs.
      * destruct (retrievalFails getRegistryStacks regi); [done|].
        by rewrite list_lookup_insert_ne.
      * destruct (retrievalFails getRegistryStacks regi);
          [done|by rewrite length_insert].
Qed.

Lemma launch_retrievals_warnings_grow (regs : list Registry) (ord : list nat)
    (sh : Shared) (ch : errChan) (w : string) :
  w ∈ warnings sh → w ∈ warnings (launch ord (retrievals regs) sh ch).1.
Proof.
  revert sh ch. induction ord as [|i ord IH]; intros sh ch Hw; [done|].
  rewrite launch_cons, retrievals_lookup.
  destruct (regs !! i) as [reg|]; cbn [fmap option_fmap option_map]; [|by apply IH].
  apply IH. rewrite retrieval_warnings.
  destruct (getRegistryStacks reg).2; [|done]. apply elem_of_app; by left.
Qed.

Lemma launch_retrievals_warns (regs : list Registry) (ord : list nat)
    (sh : Shared) (ch : errChan) (j : nat) (reg : Registry) (e : error) :
  regs !! j = Some reg → j ∈ ord → (getRegistryStacks reg).2 = Some e →
  warningText reg e ∈ warnings (launch ord (retrievals regs) sh ch).1.
Proof.
  intros Hj Hin He. revert sh ch.
  induction ord as [|i ord IH]; intros sh ch.
  - by apply elem_of_nil in Hin.
  - rewrite launch_cons, retrievals_lookup.
    destruct (decide (j = i)) as [->|Hne].
    + rewrite Hj. cbn [fmap option_fmap option_map].
      apply launch_retrievals_warnings_grow. rewrite retrieval_warnings, He.
      apply elem_of_app; right. apply list_elem_of_here.
    + assert (j ∈ ord) by (apply elem_of_cons in Hin as [?|?]; done).
      destruct (regs !! i) as [regi|]; cbn [fmap option_fmap option_map];
        by apply IH.
Qed.

End Listing.

End RegistryFacts.

(** ** The registry listing: the properties *)

Module RegistryListing.
Import Util registry RegistryExamples TaskRunnerFacts RegistryFacts.

Section Listing.
Variable getRegistryStacks : Registry → list DevfileStack * option error.

Lemma GetDevfileRegistries_no_error (o : RegistryClient) (registryName : string) :
  (GetDevfileRegistries o registryName).2 = None.
Proof. unfold GetDevfileRegistries. by destruct (RegistryList o). Qed.

(** When every retrieval has run, each slot holds what its registry
    contributes, whatever the order the retrievals ran in. *)
Lemma registrySlice_after_Run (regs : list Registry) (choices : list nat)
    (out : list string) (ch : errChan) :
  registrySlice
    (launch (Scheduler.order choices (length regs))
       (imap (retrieval getRegistryStacks) regs)
       {| registrySlice := replicate (length regs) []; warnings := out |} ch).1
  = stacksOf getRegistryStacks <$> regs.
Proof.
  apply list_eq. intros j. rewrite list_lookup_fmap.
  destruct (regs !! j) as [reg|] eqn:Hj; simpl.
  - assert (Hlt : j < length regs) by by apply lookup_lt_is_Some_1.
    rewrite (launch_retrievals_slot _ _ _ _ _ _ reg Hj);
      simpl; [|by rewrite length_replicate].
    rewrite lookup_replicate_2 by done.
    unfold stacksOf, retrievalFails.
    destruct (getRegistryStacks reg) as [stacks [e|]]; simpl.
    + case_decide as H; [by destruct H|done].
    + rewrite decide_True; [done|]. split; [|done].
      rewrite (SchedulerFacts.order_perm choices (length regs)), elem_of_seq. lia.
  - apply lookup_ge_None.
    rewrite (proj1 (retrieval_index_in_range _ _ _ _ _)). simpl.
    rewrite length_replicate. by apply lookup_ge_None.
Qed.

(** [ListDevfileStacks], written out. *)
Lemma ListDevfileStacks_eq (o : RegistryClient) (registryName : string)
    (choices : list nat) (out : list string) :
  let regs := (GetDevfileRegistries o registryName).1 in
  ∃ out',
    ListDevfileStacks getRegistryStacks o registryName choices out =
      Normal ({| DevfileRegistries := regs;
                 Items := concat (stacksOf getRegistryStacks <$> regs) |},
              None, out') ∧
    (∀ w, w ∈ out → w ∈ out') ∧
    (∀ reg e, reg ∈ regs → (getRegistryStacks reg).2 = Some e →
              warningText reg e ∈ out').
Proof.
  unfold ListDevfileStacks.
  pose proof (GetDevfileRegistries_no_error o registryName) as Herr.
  destruct (GetDevfileRegistries o registryName) as [regs err].
  simpl in Herr. subst err. simpl.
  destruct regs as [|reg0 regs'] eqn:Hregs.
  - exists out. split_and!; [done|done|]. intros reg e Hin. by apply elem_of_nil in Hin.
  - rewrite <- Hregs. 
    rewrite (forRangeIndexed_Add (retrieval getRegistryStacks)); simpl; [|done|lia].
    unfold Run. cbn [started tasks capacity]. rewrite length_imap.
    pose proof (launch_retrievals_silent getRegistryStacks regs
                  (Scheduler.order choices (length regs))
                  {| registrySlice := replicate (length regs) []; warnings := out |}
                  []) as Hch.
    pose proof (registrySlice_after_Run regs choices out []) as Hsl.
    pose proof (launch_retrievals_warnings_grow getRegistryStacks regs
                  (Scheduler.order choices (length regs))
                  {| registrySlice := replicate (length regs) []; warnings := out |}
                  []) as Hgrow.
    pose proof (launch_retrievals_warns getRegistryStacks regs
                  (Scheduler.order choices (length regs))
                  {| registrySlice := replicate (length regs) []; warnings := out |}
                  []) as Hwarn.
    destruct (launch _ _ _ _) as [sh ch]. simpl in *. subst ch. simpl.
    exists (warnings sh). rewrite fold_left_append, Hsl. simpl.
    split_and!; [done|done|].
    intros reg e Hin He. apply list_elem_of_lookup in Hin as [j Hj].
    apply (Hwarn j reg e Hj); [|done].
    rewrite (SchedulerFacts.order_perm choices (length regs)), elem_of_seq.
    apply lookup_lt_Some in Hj. lia.
Qed.

(** C9.  When the retrieval of some registry fails, its unit prints a
    warning and sends nothing on the channel; [ListDevfileStacks] still
    returns a nil error, the warning is among what was printed, and the
    items are those of the registries whose retrieval succeeded: the
    failing registry contributes none. *)
Theorem ListDevfileStacks_ignores_failing_registry
    (o : RegistryClient) (registryName : string) (choices : list nat)
    (out : list string) (reg : Registry) (e : error) :
  reg ∈ (GetDevfileRegistries o registryName).1 →
  (getRegistryStacks reg).2 = Some e →
  (∀ registryPriority sh errChannel,
     ToRun (retrieval getRegistryStacks registryPriority reg) sh errChannel =
     ({| registrySlice := registrySlice sh;
         warnings := warnings sh ++ [warningText reg e] |}, errChannel)) ∧
  stacksOf getRegistryStacks reg = [] ∧
  ∃ lst out',
    ListDevfileStacks getRegistryStacks o registryName choices out
      = Normal (lst, None, out') ∧
    warningText reg e ∈ out' ∧
    Items lst =
      concat ((λ r, (getRegistryStacks r).1) <$>
              filter (λ r, retrievalFails getRegistryStacks r = false)
                (GetDevfileRegistries o registryName).1).
Proof.
  intros Hin He.
  split_and!.
  - intros i sh ch. unfold retrieval. simpl.
    destruct (getRegistryStacks reg) as [stacks err]. simpl in He. by subst err.
  - unfold stacksOf. destruct (getRegistryStacks reg) as [stacks err].
    simpl in He. by subst err.
  - destruct (ListDevfileStacks_eq o registryName choices out)
      as (out' & Heq & _ & Hwarn).
    eexists _, out'. split; [exact Heq|]. split; [by apply Hwarn|]. simpl.
    clear. induction (GetDevfileRegistries o registryName).1 as [|r regs IH];
      [done|].
    rewrite filter_cons, fmap_cons. simpl. rewrite IH.
    destruct (getRegistryStacks r) as [stacks [err|]] eqn:Hr.
    + assert (Hf : retrievalFails getRegistryStacks r = true)
        by (unfold retrievalFails; by rewrite Hr).
      unfold stacksOf at 1. rewrite Hr, decide_False; [done|by rewrite Hf].
    + assert (Hf : retrievalFails getRegistryStacks r = false)
        by (unfold retrievalFails; by rewrite Hr).
      unfold stacksOf at 1. rewrite Hr, decide_True by done.
      simpl. by rewrite Hr.
Qed.


End Listing.

Lemma ListDevfileStacks_ignores_failing_registry_witness :
  (∀ registryPriority sh errChannel,
     ToRun (retrieval sampleRetrieval registryPriority brokenRegistry) sh errChannel =
     ({| registrySlice := registrySlice sh;
         warnings := warnings sh ++
           [warningText brokenRegistry (errorString "connection refused")] |},
      errChannel)) ∧
  stacksOf sampleRetrieval brokenRegistry = [] ∧
  ∃ lst out',
    ListDevfileStacks sampleRetrieval sampleClient "" [1] []
      = Normal (lst, None, out') ∧
    warningText brokenRegistry (errorString "connection refused") ∈ out' ∧
    Items lst =
      concat ((λ r, (sampleRetrieval r).1) <$>
              filter (λ r, retrievalFails sampleRetrieval r = false)
                (GetDevfileRegistries sampleClient "").1).
Proof.
  apply (ListDevfileStacks_ignores_failing_registry
           sampleRetrieval sampleClient "" [1] [] brokenRegistry
           (errorString "connection refused")).
  - vm_compute. apply list_elem_of_here.
  - reflexivity.
Defined.

(** The listing of the sample configuration, run under two different
    schedules: same items, no error, one warning. *)
Lemma ListDevfileStacks_sample (choices : list nat) :
  choices = [0] ∨ choices = [1] →
  ListDevfileStacks sampleRetrieval sampleClient "" choices []
  = Normal ({| DevfileRegistries := [brokenRegistry; defaultRegistry];
               Items := [sampleStack defaultRegistry] |},
            None,
            [warningText brokenRegistry (errorString "connection refused")]).
Proof. intros [->| ->]; vm_compute; reflexivity. Qed.

End RegistryListing.

(** * Further properties of the code *)

(** ** The configured registries and the index of a registry *)

Module RegistryExtras.
Import Util registry registryIndex RegistryWarnings RegistryExamples.
Import TaskRunnerFacts RegistryFacts RegistryListing.

Lemma hasName_nonempty (registryName : string) :
  registryName ≠ "" → negb (String.length registryName =? 0) = true.
Proof. by destruct registryName. Qed.

Lemma GetDevfileRegistries_loop_named (registryName : string)
    (registryList : list preference.Registry) (n : nat) (acc : list Registry) :
  n ≤ length registryList →
  GetDevfileRegistries_loop true registryName registryList n acc =
  acc ++ option_list (fromPreference <$>
           last (filter (λ r, preference.Name r = registryName)
                   (take n registryList))).
Proof.
  revert acc. induction n as [|i IH]; intros acc Hn; simpl.
  - by rewrite app_nil_r.
  - destruct (lookup_lt_is_Some_2 registryList i) as [r Hr]; [lia|].
    rewrite Hr, (take_S_r _ _ _ Hr), filter_app, filter_cons, filter_nil.
    destruct (String.eqb registryName (preference.Name r)) eqn:Heq.
    + apply String.eqb_eq in Heq. rewrite decide_True by done.
      by rewrite last_snoc.
    + apply String.eqb_neq in Heq. rewrite decide_False by done.
      rewrite app_nil_r. apply IH. lia.
Qed.

(** X1.  Asked for a registry by name, [GetDevfileRegistries] returns at
    most one registry and never an error: the last configured registry
    with that name, or nothing when there is none. *)
Theorem GetDevfileRegistries_by_name (registryName : string)
    (registryList : list preference.Registry) :
  registryName ≠ "" →
  GetDevfileRegistries {| RegistryList := Some registryList |} registryName
  = (option_list (fromPreference <$>
       last (filter (λ r, preference.Name r = registryName) registryList)),
     None).
Proof.
  intros Hname. unfold GetDevfileRegistries. simpl.
  rewrite (hasName_nonempty _ Hname).
  by rewrite GetDevfileRegistries_loop_named, firstn_all.
Qed.

Lemma GetDevfileRegistries_by_name_witness :
  GetDevfileRegistries
    {| RegistryList := Some
         [ {| preference.Name := "mine"; preference.URL := "https://a.example";
              preference.Secure := false |};
           {| preference.Name := "other"; preference.URL := "https://b.example";
              preference.Secure := false |};
           {| preference.Name := "mine"; preference.URL := "https://c.example";
              preference.Secure := true |} ] |} "mine"
  = (option_list (fromPreference <$>
       last (filter (λ r, preference.Name r = "mine")
         [ {| preference.Name := "mine"; preference.URL := "https://a.example";
              preference.Secure := false |};
           {| preference.Name := "other"; preference.URL := "https://b.example";
              preference.Secure := false |};
           {| preference.Name := "mine"; preference.URL := "https://c.example";
              preference.Secure := true |} ])),
     None).
Proof.
  apply (GetDevfileRegistries_by_name "mine"). discriminate.
Defined.

(** X2.  Asked for all registries, [GetDevfileRegistries] returns every
    configured registry, the last configured first, and no error; with no
    configured list it returns nil. *)
Theorem GetDevfileRegistries_all_reversed
    (registryList : list preference.Registry) :
  GetDevfileRegistries {| RegistryList := Some registryList |} ""
    = (reverse (fromPreference <$> registryList), None) ∧
  length (GetDevfileRegistries {| RegistryList := Some registryList |} "").1
    = length registryList ∧
  ∀ registryName,
    GetDevfileRegistries {| RegistryList := None |} registryName = ([], None).
Proof.
  rewrite GetDevfileRegistries_all, fmap_reverse. simpl.
  by rewrite length_reverse, length_fmap.
Qed.

Lemma createRegistryDevfiles_loop_app (registry : Registry)
    (devfileIndex : list Schema) (acc : list DevfileStack) :
  createRegistryDevfiles_loop registry devfileIndex acc =
  acc ++ createRegistryDevfiles_loop registry devfileIndex [].
Proof.
  revert acc. induction devfileIndex as [|e rest IH]; intros acc; simpl.
  - by rewrite app_nil_r.
  - rewrite (IH (acc ++ _)), (IH [_]). by rewrite <- app_assoc.
Qed.

(** X3.  [createRegistryDevfiles] never fails and returns one stack per
    index entry, in the order of the index: the i-th stack has the name,
    language and tags of the i-th entry, belongs to the registry given,
    and its link is the entry's link named "self", or the empty string
    when the entry has no such link. *)
Theorem createRegistryDevfiles_one_stack_per_entry (registry : Registry)
    (devfileIndex : list Schema) :
  (createRegistryDevfiles registry devfileIndex).2 = None ∧
  length (createRegistryDevfiles registry devfileIndex).1 = length devfileIndex ∧
  ∀ i entry, devfileIndex !! i = Some entry →
    ∃ stack,
      (createRegistryDevfiles registry devfileIndex).1 !! i = Some stack ∧
      stack_Name stack = schema_Name entry ∧
      stack_DisplayName stack = schema_DisplayName entry ∧
      stack_Description stack = schema_Description entry ∧
      stack_Language stack = schema_Language entry ∧
      stack_Tags stack = schema_Tags entry ∧
      stack_ProjectType stack = schema_ProjectType entry ∧
      stack_Registry stack = registry ∧
      stack_Link stack = match schema_Links entry !! "self" with
                         | Some link => link
                         | None => ""
                         end.
Proof.
  unfold createRegistryDevfiles. simpl. split; [done|].
  induction devfileIndex as [|e rest [IHlen IH]]; simpl.
  - split; [done|]. intros i entry Hi. by rewrite lookup_nil in Hi.
  - rewrite createRegistryDevfiles_loop_app. simpl. split; [by rewrite IHlen|].
    intros [|i] entry Hi; simpl in *.
    + simplify_eq. eexists. split; [done|]. simpl.
      by destruct (schema_Links entry !! "self").
    + by apply IH.
Qed.

Section Listing.
Variable getRegistryStacks : Registry → list DevfileStack * option error.

Lemma launch_retrievals_warnings (regs : list Registry) (ord : list nat)
    (sh : Shared) (ch : errChan) :
  warnings (launch ord (imap (retrieval getRegistryStacks) regs) sh ch).1 =
  warnings sh ++ omap (λ i, regs !! i ≫= warningOf getRegistryStacks) ord.
Proof.
  revert sh ch. induction ord as [|i ord IH]; intros sh ch.
  - simpl. by rewrite app_nil_r.
  - rewrite launch_cons, retrievals_lookup. cbn [omap list_omap].
    destruct (regs !! i) as [reg|]; cbn [fmap option_fmap option_map mbind option_bind];
      [|apply IH].
    rewrite IH, retrieval_warnings. unfold warningOf.
    destruct (getRegistryStacks reg).2; [|done]. by rewrite <- app_assoc.
Qed.


(** [ListDevfileStacks], written out with what it prints. *)
Lemma ListDevfileStacks_printed (o : RegistryClient) (registryName : string)
    (choices : list nat) (out : list string) :
  let regs := (GetDevfileRegistries o registryName).1 in
  ListDevfileStacks getRegistryStacks o registryName choices out =
  Normal ({| DevfileRegistries := regs;
             Items := concat (stacksOf getRegistryStacks <$> regs) |},
          None,
          out ++ omap (λ i, regs !! i ≫= warningOf getRegistryStacks)
                   (Scheduler.order choices (length regs))).
Proof.
  unfold ListDevfileStacks.
  pose proof (GetDevfileRegistries_no_error o registryName) as Herr.
  destruct (GetDevfileRegistries o registryName) as [regs err].
  simpl in Herr. subst err. simpl.
  destruct regs as [|reg0 regs'] eqn:Hregs.
  - by rewrite app_nil_r.
  - rewrite <- Hregs.
    rewrite (forRangeIndexed_Add (retrieval getRegistryStacks)); simpl; [|done|lia].
    unfold Run. cbn [started tasks capacity]. rewrite length_imap.
    pose proof (launch_retrievals_silent getRegistryStacks regs
                  (Scheduler.order choices (length regs))
                  {| registrySlice := replicate (length regs) []; warnings := out |}
                  []) as Hch.
    pose proof (registrySlice_after_Run getRegistryStacks regs choices out [])
      as Hsl.
    pose proof (launch_retrievals_warnings regs
                  (Scheduler.order choices (length regs))
                  {| registrySlice := replicate (length regs) []; warnings := out |}
                  []) as Hw.
    destruct (launch _ _ _ _) as [sh ch]. simpl in *. subst ch. simpl.
    by rewrite fold_left_append, Hsl, Hw.
Qed.


(** X5.  Asked for a registry name that is not configured,
    [ListDevfileStacks] returns an empty listing and no error and
    prints nothing, whatever the schedule and whatever the registries
    would answer. *)
Theorem ListDevfileStacks_unknown_registry
    (registryList : list preference.Registry) (registryName : string)
    (choices : list nat) (out : list string) :
  registryName ≠ "" →
  (∀ r, r ∈ registryList → preference.Name r ≠ registryName) →
  ListDevfileStacks getRegistryStacks {| RegistryList := Some registryList |}
    registryName choices out
  = Normal ({| DevfileRegistries := []; Items := [] |}, None, out).
Proof.
  intros Hname Hnone. rewrite ListDevfileStacks_printed.
  assert (GetDevfileRegistries {| RegistryList := Some registryList |}
            registryName
          = (option_list (fromPreference <$>
               last (filter (λ r, preference.Name r = registryName)
                       registryList)), None)) as ->.
  { unfold GetDevfileRegistries. simpl. rewrite (hasName_nonempty _ Hname).
    by rewrite GetDevfileRegistries_loop_named, firstn_all. }
  assert (filter (λ r, preference.Name r = registryName) registryList = [])
    as ->.
  { induction registryList as [|r l IH]; [done|].
    rewrite filter_cons, decide_False; [|apply Hnone, list_elem_of_here].
    apply IH. intros r' Hr'. by apply Hnone, list_elem_of_further. }
  simpl. by rewrite app_nil_r.
Qed.

End Listing.

Lemma ListDevfileStacks_unknown_registry_witness :
  ListDevfileStacks sampleRetrieval sampleClient "missing" [1; 0] []
  = Normal ({| DevfileRegistries := []; Items := [] |}, None, []).
Proof.
  apply (ListDevfileStacks_unknown_registry sampleRetrieval
           [ {| preference.Name := "default";
                preference.URL := "https://registry.devfile.io";
                preference.Secure := false |};
             {| preference.Name := "broken";
                preference.URL := "https://registry.invalid";
                preference.Secure := false |} ] "missing" [1; 0] []).
  - discriminate.
  - intros r Hr. repeat (apply elem_of_cons in Hr as [->|Hr]; [discriminate|]).
    by apply elem_of_nil in Hr.
Defined.

End RegistryExtras.

(** ** The parallel composite command, further *)

Module ParallelExtras.
Import Util Common Probes TaskRunnerFacts ParallelFacts.


Lemma order_one (choices : list nat) : Scheduler.order choices 1 = [0].
Proof.
  unfold Scheduler.order. cbn [Scheduler.pick_order seq length].
  by rewrite Nat.mod_1_r.
Qed.

(** X7.  A parallel composite with a single child has one possible run:
    [Execute] and [UnExecute] call the child once and return its error
    wrapped once, or nil when it returns nil, whatever the scheduler
    draws. *)
Theorem parallel_single_child {W : Type} (meth : method) (c : command W)
    (m : Machine W) :
  parallelCompositeCommand_invoke meth {| cmds := [c] |} m =
  Normal ({| cmds := [c] |},
          (invoke meth c {| world := world m; sched := drop 1 (sched m) |}).1,
          Errorf_w "parallel command execution failed: " <$>
            (invoke meth c {| world := world m; sched := drop 1 (sched m) |}).2).
Proof.
  rewrite parallel_invoke_eq. cbn [cmds length]. rewrite order_one.
  cbn [fmap list_fmap]. rewrite launch_cons. cbn [lookup list_lookup].
  unfold unitOf. cbn [ToRun launch].
  by destruct (invoke meth c _) as [m' [e|]].
Qed.

(** X8.  When all the children that fail in a run fail with the same
    error, in particular when a single child fails, [Execute] and
    [UnExecute] return that error wrapped, whatever the schedule. *)
Theorem parallel_single_error {W : Type} (meth : method)
    (cs : list (command W)) (m : Machine (@Observed W))
    (p' : parallelCompositeCommand (@Observed W)) (m' : Machine (@Observed W))
    (err : option error) (tr : Log) (i : nat) (e : error) :
  parallelCompositeCommand_invoke meth {| cmds := probed cs |} m
    = Normal (p', m', err) →
  calls m' = calls m ++ tr →
  (i, Some e) ∈ tr →
  (∀ j e', (j, Some e') ∈ tr → e' = e) →
  err = Some (wrapError ("parallel command execution failed: " +:+ Error e) e).
Proof.
  intros Hrun Hcalls Hi Hsame.
  destruct (parallel_probed meth cs m) as (tr0 & m0 & Heq & Hc0 & _).
  rewrite Heq in Hrun. simplify_eq.
  rewrite Hc0 in Hcalls. apply app_inv_head in Hcalls. subst tr0.
  assert (Hin : e ∈ failures tr) by (apply failures_elem; eauto).
  destruct (failures tr) as [|e' l] eqn:Hf; [by apply elem_of_nil in Hin|].
  destruct (head_failures tr e') as [k Hk]; [by rewrite Hf|].
  by rewrite (Hsame k e' Hk).
Qed.

Lemma parallel_single_error_witness :
  Some (wrapError "parallel command execution failed: b" (errorString "b"))
  = Some (wrapError ("parallel command execution failed: " +:+
                       Error (errorString "b")) (errorString "b")).
Proof.
  apply (parallel_single_error (W := unit) (callExecute true)
           Examples.oneFailing (Examples.start [2; 0])
           {| cmds := probed Examples.oneFailing |}
           {| world := (tt, [(2, None); (0, None); (1, Some (errorString "b"))]);
              sched := [] |}
           _ [(2, None); (0, None); (1, Some (errorString "b"))] 1).
  - vm_compute. reflexivity.
  - vm_compute. reflexivity.
  - do 2 apply list_elem_of_further. apply list_elem_of_here.
  - intros j e' Hin.
    repeat (apply elem_of_cons in Hin as [Heq|Hin]; [by simplify_eq|]).
    by apply elem_of_nil in Hin.
Defined.

End ParallelExtras.

(** ** The port pairs of the [dev] command *)

Module DevExtras.
Import dev DevNotions DevExamples.

Lemma appendPair_lookup (name pair : string) (pp : gmap string (list string)) :
  appendPair name pair pp !! name = Some (default [] (pp !! name) ++ [pair]).
Proof. unfold appendPair. apply lookup_insert_eq. Qed.

Lemma appendPair_lookup_ne (name pair k : string)
    (pp : gmap string (list string)) :
  k ≠ name → appendPair name pair pp !! k = pp !! k.
Proof. intros Hne. unfold appendPair. by apply lookup_insert_ne. Qed.

Lemma extend_snoc (x : string) (l : list string) (old : option (list string)) :
  extend l (Some (default [] old ++ [x])) = extend (x :: l) old.
Proof. destruct l; simpl; [done|]. by rewrite <- app_assoc. Qed.

Lemma randomPortPairs_ports_lookup (name : string) (ports : list Z)
    (pp : gmap string (list string)) (k : string) :
  randomPortPairs_ports name ports pp !! k =
  if decide (k = name) then extend (Sprintf_d <$> ports) (pp !! name)
  else pp !! k.
Proof.
  revert pp. induction ports as [|p ports IH]; intros pp; simpl.
  - by case_decide; subst.
  - rewrite IH. case_decide as Hk.
    + by rewrite appendPair_lookup, extend_snoc.
    + by rewrite appendPair_lookup_ne.
Qed.

Lemma randomPortPairs_containers_lookup (ceMap : list (string * list Z))
    (pp : gmap string (list string)) (k : string) :
  NoDup ceMap.*1 →
  randomPortPairs_containers ceMap pp !! k =
  match (list_to_map ceMap : gmap string (list Z)) !! k with
  | Some ports => extend (Sprintf_d <$> ports) (pp !! k)
  | None => pp !! k
  end.
Proof.
  revert pp. induction ceMap as [|[name ports] ceMap IH]; intros pp Hnd.
  - simpl. by rewrite lookup_empty.
  - apply NoDup_cons in Hnd as [Hnotin Hnd]. simpl.
    rewrite IH by done. rewrite randomPortPairs_ports_lookup.
    destruct (decide (k = name)) as [->|Hne].
    + rewrite lookup_insert_eq.
      by rewrite (not_elem_of_list_to_map_1 _ _ Hnotin).
    + by rewrite lookup_insert_ne.
Qed.

(** X9.  [randomPortPairsFromContainerEndpoints] gives every container
    that has endpoints the pairs ":p" of its ports, in the order of the
    ports, and leaves out the containers without endpoints; the result
    does not depend on the order in which the Go map is visited. *)
Theorem randomPortPairs_independent_of_visit_order
    (m : gmap string (list Z)) (ceMap : list (string * list Z)) :
  ceMap ≡ₚ map_to_list m →
  randomPortPairsFromContainerEndpoints ceMap =
  omap (λ ports, whenNonEmpty (Sprintf_d <$> ports)) m.
Proof.
  intros Hperm.
  assert (Hnd : NoDup ceMap.*1).
  { rewrite Hperm. apply NoDup_fst_map_to_list. }
  assert (Hm : (list_to_map ceMap : gmap string (list Z)) = m).
  { rewrite (list_to_map_proper _ _ Hnd Hperm). apply list_to_map_to_list. }
  apply map_eq. intros k. unfold randomPortPairsFromContainerEndpoints.
  rewrite randomPortPairs_containers_lookup by done.
  rewrite Hm, lookup_omap, lookup_empty.
  by destruct (m !! k).
Qed.

Section Sequential.
Variable IsPortFree : Z → bool.

Lemma int_incr_no_wrap (x : Z) : (x < maxInt)%Z → int_incr x = (x + 1)%Z.
Proof. intros Hx. unfold int_incr. case_decide; [lia|done]. Qed.

(** The search ends at the least free port from its start on. *)
Lemma firstFreePort_least (fuel : nat) (port port' : Z) :
  firstFreePort IsPortFree fuel port = Some port' →
  (port + Z.of_nat fuel ≤ maxInt + 1)%Z →
  (port ≤ port' < port + Z.of_nat fuel)%Z ∧ IsPortFree port' = true ∧
  ∀ q, (port ≤ q < port')%Z → IsPortFree q = false.
Proof.
  revert port. induction fuel as [|fuel IH]; intros port Hsearch Hbound;
    [done|].
  simpl in Hsearch. destruct (IsPortFree port) eqn:Hfree.
  - simplify_eq. split_and!; [lia|lia|done|]. intros q Hq. lia.
  - destruct fuel as [|fuel']; [done|].
    rewrite int_incr_no_wrap in Hsearch by lia.
    destruct (IH _ Hsearch) as (Hrange & Hfree' & Hleast); [lia|].
    split_and!; [lia|lia|done|].
    intros q Hq. destruct (decide (q = port)) as [->|]; [done|].
    apply Hleast. lia.
Qed.

Lemma firstFreePort_is_Some (fuel : nat) (port : Z) :
  (∃ r, (port ≤ r < port + Z.of_nat fuel)%Z ∧ IsPortFree r = true) →
  (port + Z.of_nat fuel ≤ maxInt + 1)%Z →
  is_Some (firstFreePort IsPortFree fuel port).
Proof.
  revert port. induction fuel as [|fuel IH]; intros port (r & Hr & Hfree) Hbound.
  - lia.
  - simpl. destruct (IsPortFree port) eqn:Hport; [by eexists|].
    assert (r ≠ port) by (intros ->; congruence).
    rewrite int_incr_no_wrap by lia. apply IH; [|lia].
    exists r. split; [lia|done].
Qed.

Lemma leastFreeChain_app (prev : Z) (l1 l2 : list Z) :
  leastFreeChain IsPortFree prev l1 →
  leastFreeChain IsPortFree (default prev (last l1)) l2 →
  leastFreeChain IsPortFree prev (l1 ++ l2).
Proof.
  revert prev. induction l1 as [|l l1 IH]; intros prev H1 H2; [done|].
  destruct H1 as (Hlt & Hfree & Hleast & H1).
  simpl. split_and!; [done..|]. apply IH; [done|].
  rewrite last_cons in H2. by destruct (last l1).
Qed.

Lemma leastFreeChain_sorted (prev : Z) (locals : list Z) :
  leastFreeChain IsPortFree prev locals →
  StronglySorted Z.lt (prev :: locals) ∧
  Forall (λ l, IsPortFree l = true) locals.
Proof.
  revert prev. induction locals as [|l locals IH]; intros prev Hchain.
  - split; [repeat constructor|constructor].
  - destruct Hchain as (Hlt & Hfree & _ & Hchain).
    destruct (IH l Hchain) as [Hsorted Hall].
    split; [|by constructor].
    apply StronglySorted_inv in Hsorted as [Hs Hl].
    constructor; [by constructor|].
    constructor; [done|]. eapply Forall_impl; [exact Hl|].
    intros x Hx. simpl in *. lia.
Qed.

Lemma portPairs_ports_spec (fuel : nat) (name : string) (ports : list Z)
    (port port' : Z) (pp pp' : gmap string (list string)) :
  portPairs_ports IsPortFree fuel name ports port pp = Some (port', pp') →
  (port + Z.of_nat fuel * Z.of_nat (length ports) ≤ maxInt)%Z →
  ∃ locals,
    length locals = length ports ∧
    leastFreeChain IsPortFree port locals ∧
    port' = default port (last locals) ∧
    (port ≤ port' ≤ port + Z.of_nat fuel * Z.of_nat (length ports))%Z ∧
    ∀ k, pp' !! k =
         if decide (k = name)
         then extend (zip_with Sprintf_d_d locals ports) (pp !! name)
         else pp !! k.
Proof.
  revert port pp. induction ports as [|p ports IH]; intros port pp Hrun Hbound.
  - simpl in Hrun. simplify_eq. exists []. simpl.
    split_and!; [done|done|done|lia|lia|]. intros k. by case_decide; subst.
  - simpl in Hrun.
    destruct fuel as [|fuel']; [done|].
    rewrite int_incr_no_wrap in Hrun by (simpl length in Hbound; lia).
    destruct (firstFreePort IsPortFree (S fuel') (port + 1)) as [l|] eqn:Hl;
      [|done].
    simpl length in Hbound.
    destruct (firstFreePort_least _ _ _ Hl) as (Hrange & Hfree & Hleast); [lia|].
    destruct Hrange as [Hlo Hhi].
    destruct (IH _ _ Hrun) as (locals & Hlen & Hchain & Hlast & Hport' & Hpp);
      [lia|].
    exists (l :: locals). split_and!.
    + simpl. by rewrite Hlen.
    + simpl. split_and!; [lia|done| |done]. intros q Hq. apply Hleast. lia.
    + rewrite Hlast, last_cons. by destruct (last locals).
    + lia.
    + simpl length. lia.
    + intros k. rewrite Hpp. case_decide as Hk.
      * by rewrite appendPair_lookup, extend_snoc.
      * by rewrite appendPair_lookup_ne.
Qed.

Lemma endpoints_cons (name : string) (ports : list Z)
    (ceMap : list (string * list Z)) :
  endpoints ((name, ports) :: ceMap) = length ports + endpoints ceMap.
Proof. unfold endpoints. simpl. by rewrite length_app. Qed.

Lemma pairsOf_names (ceMap : list (string * list Z)) (localss : list (list Z)) :
  length localss = length ceMap →
  (zip_with pairsOf ceMap localss).*1 = ceMap.*1.
Proof.
  revert localss. induction ceMap as [|e ceMap IH]; intros [|l localss] Hlen;
    simplify_eq/=; [done|]. by rewrite IH.
Qed.

Lemma portPairs_containers_spec (fuel : nat) (ceMap : list (string * list Z))
    (port port' : Z) (pp pp' : gmap string (list string)) :
  portPairs_containers IsPortFree fuel ceMap port pp = Some (port', pp') →
  NoDup ceMap.*1 →
  (port + Z.of_nat fuel * Z.of_nat (endpoints ceMap) ≤ maxInt)%Z →
  ∃ localss,
    Forall2 (λ entry locals, length locals = length entry.2) ceMap localss ∧
    leastFreeChain IsPortFree port (concat localss) ∧
    port' = default port (last (concat localss)) ∧
    (port ≤ port' ≤ port + Z.of_nat fuel * Z.of_nat (endpoints ceMap))%Z ∧
    ∀ k, pp' !! k =
         match (list_to_map (zip_with pairsOf ceMap localss)
                  : gmap string (list string)) !! k with
         | Some pairs => extend pairs (pp !! k)
         | None => pp !! k
         end.
Proof.
  revert port pp.
  induction ceMap as [|[name ports] ceMap IH]; intros port pp Hrun Hnd Hbound.
  - simpl in Hrun. simplify_eq. exists []. simpl.
    split_and!; [constructor|done|done|lia|lia|].
    intros k. by rewrite lookup_empty.
  - apply NoDup_cons in Hnd as [Hnotin Hnd]. simpl in Hrun.
    rewrite endpoints_cons in Hbound.
    destruct (portPairs_ports IsPortFree fuel name ports port pp)
      as [[port1 pp1]|] eqn:Hports; [|done].
    destruct (portPairs_ports_spec _ _ _ _ _ _ _ Hports)
      as (locals & Hlen & Hchain & Hlast & Hport1 & Hpp1); [lia|].
    destruct (IH _ _ Hrun Hnd)
      as (localss & Hlens & Hchains & Hlasts & Hport' & Hpp'); [lia|].
    exists (locals :: localss). split_and!.
    + by constructor.
    + simpl. apply leastFreeChain_app; [done|]. by rewrite <- Hlast.
    + simpl. rewrite Hlasts, Hlast, last_app.
      by destruct (last (concat localss)).
    + lia.
    + rewrite endpoints_cons. lia.
    + intros k. rewrite Hpp', Hpp1. simpl.
      destruct (decide (k = name)) as [->|Hne].
      * rewrite lookup_insert_eq.
        rewrite (not_elem_of_list_to_map_1 (zip_with pairsOf ceMap localss)); [done|].
        rewrite pairsOf_names; [done|]. symmetry. by eapply Forall2_length.
      * by rewrite lookup_insert_ne.
Qed.

(** X10.  When [portPairsFromContainerEndpoints] returns, every container
    that has endpoints gets one pair "local:remote" per port, in the
    order of its ports, and containers without endpoints are left out.
    The local ports, in the order the endpoints were visited, are each
    the least free port above the previous one, starting above 40000: they
    are free, strictly increasing, and no two endpoints share one. *)
Theorem portPairs_least_free_ports (fuel : nat)
    (ceMap : list (string * list Z)) (portPairs : gmap string (list string)) :
  NoDup ceMap.*1 →
  (40000 + Z.of_nat fuel * Z.of_nat (endpoints ceMap) ≤ maxInt)%Z →
  portPairsFromContainerEndpoints IsPortFree fuel ceMap = Some portPairs →
  ∃ localss,
    Forall2 (λ entry locals, length locals = length entry.2) ceMap localss ∧
    leastFreeChain IsPortFree 40000 (concat localss) ∧
    StronglySorted Z.lt (40000%Z :: concat localss) ∧
    Forall (λ l, IsPortFree l = true) (concat localss) ∧
    portPairs = omap whenNonEmpty (list_to_map (zip_with pairsOf ceMap localss)).
Proof.
  intros Hnd Hbound Hrun. unfold portPairsFromContainerEndpoints in Hrun.
  destruct (portPairs_containers IsPortFree fuel ceMap 40000 ∅)
    as [[port' pp']|] eqn:Hc; simplify_eq/=.
  destruct (portPairs_containers_spec _ _ _ _ _ _ Hc Hnd Hbound)
    as (localss & Hlens & Hchain & _ & _ & Hpp).
  exists localss. destruct (leastFreeChain_sorted _ _ Hchain) as [Hs Hf].
  split_and!; [done..|].
  apply map_eq. intros k. rewrite Hpp, lookup_omap, lookup_empty.
  by destruct (_ !! k).
Qed.

Lemma portPairs_ports_is_Some (fuel : nat) (name : string) (ports : list Z)
    (base top port : Z) (pp : gmap string (list string)) :
  (∀ q, (base < q)%Z → (q + Z.of_nat fuel ≤ top + 1)%Z →
        ∃ r, (q ≤ r < q + Z.of_nat fuel)%Z ∧ IsPortFree r = true) →
  (base ≤ port)%Z →
  (port + Z.of_nat fuel * Z.of_nat (length ports) ≤ top)%Z →
  (top ≤ maxInt)%Z →
  is_Some (portPairs_ports IsPortFree fuel name ports port pp).
Proof.
  intros Hfree. revert port pp.
  induction ports as [|p ports IH]; intros port pp Hbase Hbound Htop;
    [by eexists|].
  simpl. simpl length in Hbound.
  destruct (Hfree (port + 1)%Z) as (r & Hr & Hrfree); [lia|lia|].
  assert (0 < fuel) by lia.
  rewrite int_incr_no_wrap by lia.
  destruct (firstFreePort_is_Some fuel (port + 1)) as [l Hl]; [by eauto|lia|].
  rewrite Hl.
  destruct (firstFreePort_least _ _ _ Hl) as (Hrange & _ & _); [lia|].
  apply IH; lia.
Qed.

(** X11.  [portPairsFromContainerEndpoints] returns when free ports are
    not too far apart in the range it can reach: if every run of [fuel]
    consecutive ports among the [fuel] times endpoints ports above 40000
    has a free one, no search tries more than [fuel] ports and the
    function returns.  Nothing is asked of the ports beyond that
    range. *)
Theorem portPairs_returns (fuel : nat) (ceMap : list (string * list Z)) :
  (∀ q, (40000 < q)%Z →
        (q + Z.of_nat fuel
           ≤ 40001 + Z.of_nat fuel * Z.of_nat (endpoints ceMap))%Z →
        ∃ r, (q ≤ r < q + Z.of_nat fuel)%Z ∧ IsPortFree r = true) →
  (40000 + Z.of_nat fuel * Z.of_nat (endpoints ceMap) ≤ maxInt)%Z →
  is_Some (portPairsFromContainerEndpoints IsPortFree fuel ceMap).
Proof.
  intros Hfree Hbound. unfold portPairsFromContainerEndpoints.
  apply fmap_is_Some.
  set (top := (40000 + Z.of_nat fuel * Z.of_nat (endpoints ceMap))%Z) in *.
  assert (Hfree' : ∀ q, (40000 < q)%Z → (q + Z.of_nat fuel ≤ top + 1)%Z →
             ∃ r, (q ≤ r < q + Z.of_nat fuel)%Z ∧ IsPortFree r = true).
  { intros q Hq Hq'. apply Hfree; [done|]. unfold top in Hq'. lia. }
  assert (Hgen : ∀ ceMap' port (pp : gmap string (list string)),
             (40000 ≤ port)%Z →
             (port + Z.of_nat fuel * Z.of_nat (endpoints ceMap') ≤ top)%Z →
             is_Some (portPairs_containers IsPortFree fuel ceMap' port pp)).
  { clear Hfree. intros ceMap'.
    induction ceMap' as [|[name ports] ceMap' IH];
      intros port pp Hbase Hreach; [by eexists|].
    rewrite endpoints_cons in Hreach. simpl.
    destruct (portPairs_ports_is_Some fuel name ports 40000 top port pp)
      as [[port1 pp1] Hports]; [done|done|lia|done|].
    rewrite Hports.
    destruct (portPairs_ports_spec _ _ _ _ _ _ _ Hports)
      as (_ & _ & _ & _ & Hport1 & _); [lia|].
    apply IH; lia. }
  apply Hgen; [done|]. unfold top. lia.
Qed.

End Sequential.

Lemma randomPortPairs_independent_of_visit_order_witness :
  randomPortPairsFromContainerEndpoints
    (map_to_list (list_to_map sampleContainers : gmap string (list Z))) =
  omap (λ ports, whenNonEmpty (Sprintf_d <$> ports))
    (list_to_map sampleContainers : gmap string (list Z)).
Proof.
  apply (randomPortPairs_independent_of_visit_order
           (list_to_map sampleContainers)). reflexivity.
Defined.

Lemma sampleContainers_NoDup : NoDup sampleContainers.*1.
Proof.
  apply NoDup_cons. split; [|apply NoDup_singleton].
  intros Hin. apply list_elem_of_singleton in Hin. discriminate.
Qed.

Lemma portPairs_least_free_ports_witness :
  ∃ localss,
    Forall2 (λ entry locals, length locals = length entry.2)
      sampleContainers localss ∧
    leastFreeChain sampleFree 40000 (concat localss) ∧
    StronglySorted Z.lt (40000%Z :: concat localss) ∧
    Forall (λ l, sampleFree l = true) (concat localss) ∧
    ({[ "web" := ["40001:3000"; "40003:3001"] ]} : gmap string (list string))
      = omap whenNonEmpty (list_to_map (zip_with pairsOf sampleContainers localss)).
Proof.
  apply (portPairs_least_free_ports sampleFree 3 sampleContainers).
  - apply sampleContainers_NoDup.
  - vm_compute. discriminate.
  - vm_compute. reflexivity.
Defined.

Lemma portPairs_returns_witness :
  is_Some (portPairsFromContainerEndpoints listenerFree 2 sampleContainers).
Proof.
  apply (portPairs_returns listenerFree 2 sampleContainers).
  - intros q Hq Hreach.
    assert (Hq' : (q ≤ 40003)%Z)
      by (change (endpoints sampleContainers) with 2 in Hreach; lia).
    destruct (decide (q = 40002%Z)) as [->|Hne].
    + exists 40003%Z. split; [lia|reflexivity].
    + exists q. split; [lia|]. unfold listenerFree.
      apply andb_true_iff. split.
      * apply Z.leb_le. lia.
      * by apply negb_true_iff, Z.eqb_neq.
  - vm_compute. discriminate.
Defined.

End DevExtras.

(** ** Converting GitHub URLs *)

Module GoStringsFacts.
Import GoStrings.

Lemma app_String (x : Ascii.ascii) (a b : string) :
  String x a +:+ b = String x (a +:+ b).
Proof. reflexivity. Qed.

Lemma app_Empty (b : string) : "" +:+ b = b.
Proof. reflexivity. Qed.

Lemma append_assoc (a b c : string) : (a +:+ b) +:+ c = a +:+ (b +:+ c).
Proof.
  induction a as [|x a IH]; [done|]. rewrite !app_String. by f_equal.
Qed.

Lemma prefix_first_differs (x y : Ascii.ascii) (p s : string) :
  x ≠ y → String.prefix (String x p) (String y s) = false.
Proof. intros Hne. simpl. by destruct (Ascii.ascii_dec x y). Qed.

Lemma prefix_refl_app (p s : string) : String.prefix p (p +:+ s) = true.
Proof. apply GoErrorFacts.prefix_app. Qed.

Lemma skip_app (p s : string) : skip (String.length p) (p +:+ s) = s.
Proof.
  induction p as [|x p IH]; [by destruct s|]. by rewrite app_String.
Qed.

Lemma Replace1_here (s old new : string) :
  String.prefix old s = true →
  Replace1 s old new = new +:+ skip (String.length old) s.
Proof. intros H. destruct s; cbn [Replace1]; by rewrite H. Qed.

Lemma Replace1_step (x : Ascii.ascii) (s old new : string) :
  String.prefix old (String x s) = false →
  Replace1 (String x s) old new = String x (Replace1 s old new).
Proof. intros H. cbn [Replace1]. by rewrite H. Qed.

(** A match of [old] starts with the first byte of [old]: a stretch
    without that byte is copied. *)
Lemma Replace1_app_noByte (c : Ascii.ascii) (old' a s new : string) :
  noByte c a = true →
  Replace1 (a +:+ s) (String c old') new = a +:+ Replace1 s (String c old') new.
Proof.
  induction a as [|x a IH]; intros Hfree; [done|].
  simpl in Hfree. apply andb_true_iff in Hfree as [Hx Hfree].
  apply negb_true_iff, Ascii.eqb_neq in Hx.
  rewrite !app_String, Replace1_step.
  - by rewrite IH.
  - apply prefix_first_differs. congruence.
Qed.

(** A prefix without the byte [c] cannot reach across a [c]. *)
Lemma prefix_app_noByte (c : Ascii.ascii) (p a rest : string) :
  noByte c p = true → String.prefix p a = false →
  String.prefix p (a +:+ String c rest) = false.
Proof.
  revert a. induction p as [|x p IH]; intros a Hfree Hpre; [by destruct a|].
  simpl in Hfree. apply andb_true_iff in Hfree as [Hx Hfree].
  apply negb_true_iff, Ascii.eqb_neq in Hx.
  destruct a as [|y a].
  - rewrite app_Empty. by apply prefix_first_differs.
  - rewrite app_String. simpl in *.
    destruct (Ascii.ascii_dec x y); [by apply IH|done].
Qed.

Lemma Split_noByte (sep : Ascii.ascii) (s : string) :
  noByte sep s = true → Split s sep = [s].
Proof.
  induction s as [|x s IH]; intros Hfree; [done|].
  simpl in Hfree. apply andb_true_iff in Hfree as [Hx Hfree].
  apply negb_true_iff in Hx. simpl. by rewrite Hx, IH.
Qed.

Lemma Split_app_sep (sep : Ascii.ascii) (a b : string) :
  noByte sep a = true →
  Split (a +:+ String sep b) sep = a :: Split b sep.
Proof.
  induction a as [|x a IH]; intros Hfree.
  - rewrite app_Empty. simpl. by rewrite Ascii.eqb_refl.
  - simpl in Hfree. apply andb_true_iff in Hfree as [Hx Hfree].
    apply negb_true_iff in Hx. rewrite app_String. simpl. by rewrite Hx, IH.
Qed.

End GoStringsFacts.

Module ConvertURLExtras.
Import GoStrings GoStringsFacts registryIndex RegistryIndexExamples.

Lemma prefix_same_first (x : Ascii.ascii) (p s : string) :
  String.prefix (String x p) (String x s) = String.prefix p s.
Proof. simpl. by destruct (Ascii.ascii_dec x x). Qed.

Lemma prefix_Empty (s : string) : String.prefix "" s = true.
Proof. by destruct s. Qed.

(** The host of a GitHub URL is rewritten where it first occurs, which
    for a URL that starts with "https://github.com" is the host. *)
Lemma Replace1_github_host (path : string) :
  Replace1 ("https://github.com" +:+ path) "github.com" "raw.githubusercontent.com"
  = "https://raw.githubusercontent.com" +:+ path.
Proof.
  rewrite !app_String, app_Empty.
  do 8 (rewrite Replace1_step by reflexivity).
  rewrite Replace1_here
    by (rewrite !prefix_same_first; apply prefix_Empty).
  reflexivity.
Qed.

Section ConvertURL.
Variable url_Parse_Host : string → string * option error.

Lemma convertURL_github (URL : string) :
  url_Parse_Host URL = ("github.com", None) →
  convertURL url_Parse_Host URL =
  (Replace1
     (if (2 <? length (Split URL slash)) &&
         bool_decide (Split URL slash !! (length (Split URL slash) - 2)
                      = Some "tree")
      then Replace1 URL "/tree" ""
      else URL +:+ "/master")
     "github.com" "raw.githubusercontent.com", None).
Proof. intros H. unfold convertURL. rewrite H. reflexivity. Qed.

(** X12.  A GitHub repository URL without a branch is converted to the
    raw URL of its master branch. *)
Theorem convertURL_repository (org repo : string) :
  noByte slash org = true → noByte slash repo = true → org ≠ "tree" →
  url_Parse_Host ("https://github.com/" +:+ org +:+ "/" +:+ repo)
    = ("github.com", None) →
  convertURL url_Parse_Host ("https://github.com/" +:+ org +:+ "/" +:+ repo)
  = ("https://raw.githubusercontent.com/" +:+ org +:+ "/" +:+ repo +:+ "/master",
     None).
Proof.
  intros Horg Hrepo Hne Hparse.
  rewrite (convertURL_github _ Hparse).
  assert (Hsplit : Split ("https://github.com/" +:+ org +:+ "/" +:+ repo) slash
                   = ["https:"; ""; "github.com"; org; repo]).
  { change ("https://github.com/" +:+ org +:+ "/" +:+ repo)
      with ("https:" +:+ String slash ("" +:+ String slash
              ("github.com" +:+ String slash (org +:+ String slash repo)))).
    rewrite !Split_app_sep by done. by rewrite Split_noByte. }
  rewrite Hsplit. cbn [length Nat.ltb Nat.leb Nat.sub lookup list_lookup andb].
  rewrite bool_decide_eq_false_2 by congruence.
  change ("https://github.com/" +:+ org +:+ "/" +:+ repo)
    with ("https://github.com" +:+ ("/" +:+ org +:+ "/" +:+ repo)).
  rewrite append_assoc, Replace1_github_host, !append_assoc.
  reflexivity.
Qed.

Lemma Split_tree_URL (org repo branch : string) :
  noByte slash org = true → noByte slash repo = true →
  noByte slash branch = true →
  Split ("https://github.com/" +:+ org +:+ "/" +:+ repo +:+ "/tree/" +:+ branch)
    slash
  = ["https:"; ""; "github.com"; org; repo; "tree"; branch].
Proof.
  intros Horg Hrepo Hbranch.
  change ("https://github.com/" +:+ org +:+ "/" +:+ repo +:+ "/tree/" +:+ branch)
    with ("https:" +:+ String slash ("" +:+ String slash
            ("github.com" +:+ String slash (org +:+ String slash
               (repo +:+ String slash ("tree" +:+ String slash branch)))))).
  rewrite !Split_app_sep by done. by rewrite Split_noByte.
Qed.

(** X13.  A GitHub URL of a branch, https://github.com/ORG/REPO/tree/BRANCH,
    where BRANCH, like ORG and REPO, holds no slash, is converted to the
    raw URL of that branch, provided neither ORG nor REPO begins with
    "tree". *)
Theorem convertURL_branch (org repo branch : string) :
  noByte slash org = true → noByte slash repo = true →
  noByte slash branch = true →
  String.prefix "tree" org = false → String.prefix "tree" repo = false →
  url_Parse_Host
    ("https://github.com/" +:+ org +:+ "/" +:+ repo +:+ "/tree/" +:+ branch)
    = ("github.com", None) →
  convertURL url_Parse_Host
    ("https://github.com/" +:+ org +:+ "/" +:+ repo +:+ "/tree/" +:+ branch)
  = ("https://raw.githubusercontent.com/" +:+ org +:+ "/" +:+ repo +:+ "/"
       +:+ branch, None).
Proof.
  intros Horg Hrepo Hbranch Horg' Hrepo' Hparse.
  rewrite (convertURL_github _ Hparse), Split_tree_URL by done.
  cbn [length Nat.ltb Nat.leb Nat.sub lookup list_lookup andb].
  rewrite bool_decide_eq_true_2 by done.
  change ("https://github.com/" +:+ org +:+ "/" +:+ repo +:+ "/tree/" +:+ branch)
    with ("https:" +:+ String slash (String slash
            ("github.com" +:+ String slash (org +:+ String slash
               (repo +:+ String slash ("tree" +:+ String slash branch)))))).
  change "/tree" with (String slash "tree").
  rewrite (Replace1_app_noByte slash) by reflexivity.
  do 2 (rewrite Replace1_step by reflexivity).
  rewrite (Replace1_app_noByte slash) by reflexivity.
  rewrite Replace1_step
    by (rewrite prefix_same_first; by apply prefix_app_noByte).
  rewrite (Replace1_app_noByte slash) by done.
  rewrite Replace1_step
    by (rewrite prefix_same_first; by apply prefix_app_noByte).
  rewrite (Replace1_app_noByte slash) by done.
  rewrite (Replace1_here _ (String slash "tree"))
    by (rewrite prefix_same_first; apply prefix_refl_app).
  change (String.length (String slash "tree")) with (S (String.length "tree")).
  cbn [skip]. rewrite skip_app, app_Empty.
  change ("https:" +:+ String slash (String slash
            ("github.com" +:+ String slash (org +:+ String slash
               (repo +:+ String slash branch)))))
    with ("https://github.com" +:+ ("/" +:+ org +:+ "/" +:+ repo +:+ "/" +:+ branch)).
  by rewrite Replace1_github_host.
Qed.

(** X14.  The "/tree" that [convertURL] removes is the first one in the
    URL, not the segment it tested: when ORG begins with "tree", the
    branch segment stays and the "/tree" at the start of ORG is removed,
    which joins the rest of ORG to the host. *)
Theorem convertURL_branch_of_tree_organisation (rest repo branch : string) :
  noByte slash rest = true → noByte slash repo = true →
  noByte slash branch = true →
  url_Parse_Host
    ("https://github.com/tree" +:+ rest +:+ "/" +:+ repo +:+ "/tree/" +:+ branch)
    = ("github.com", None) →
  convertURL url_Parse_Host
    ("https://github.com/tree" +:+ rest +:+ "/" +:+ repo +:+ "/tree/" +:+ branch)
  = ("https://raw.githubusercontent.com" +:+ rest +:+ "/" +:+ repo +:+ "/tree/"
       +:+ branch, None).
Proof.
  intros Hrest Hrepo Hbranch Hparse.
  rewrite (convertURL_github _ Hparse).
  change ("https://github.com/tree" +:+ rest +:+ "/" +:+ repo +:+ "/tree/" +:+ branch)
    with ("https://github.com/" +:+ ("tree" +:+ rest) +:+ "/" +:+ repo
            +:+ "/tree/" +:+ branch).
  rewrite Split_tree_URL; [|by rewrite app_String|done|done].
  cbn [length Nat.ltb Nat.leb Nat.sub lookup list_lookup andb].
  rewrite bool_decide_eq_true_2 by done.
  change ("https://github.com/" +:+ ("tree" +:+ rest) +:+ "/" +:+ repo
            +:+ "/tree/" +:+ branch)
    with ("https:" +:+ String slash (String slash
            ("github.com" +:+ String slash ("tree" +:+ rest +:+ String slash
               (repo +:+ String slash ("tree" +:+ String slash branch)))))).
  change "/tree" with (String slash "tree").
  rewrite (Replace1_app_noByte slash) by reflexivity.
  do 2 (rewrite Replace1_step by reflexivity).
  rewrite (Replace1_app_noByte slash) by reflexivity.
  rewrite (Replace1_here _ (String slash "tree"))
    by (rewrite prefix_same_first; apply prefix_refl_app).
  change (String.length (String slash "tree")) with (S (String.length "tree")).
  cbn [skip]. rewrite skip_app, app_Empty.
  change ("https:" +:+ String slash (String slash
            ("github.com" +:+ rest +:+ String slash
               (repo +:+ String slash ("tree" +:+ String slash branch)))))
    with ("https://github.com" +:+ (rest +:+ "/" +:+ repo +:+ "/tree/" +:+ branch)).
  by rewrite Replace1_github_host.
Qed.

End ConvertURL.

Lemma convertURL_repository_witness :
  convertURL hostOf "https://github.com/devfile/registry"
  = ("https://raw.githubusercontent.com/devfile/registry/master", None).
Proof.
  apply (convertURL_repository hostOf "devfile" "registry");
    [reflexivity|reflexivity|discriminate|reflexivity].
Defined.

Lemma convertURL_branch_witness :
  convertURL hostOf
    "https://github.com/elsony/devfile-registry/tree/johnmcollier-crw"
  = ("https://raw.githubusercontent.com/elsony/devfile-registry/johnmcollier-crw",
     None).
Proof.
  apply (convertURL_branch hostOf "elsony" "devfile-registry" "johnmcollier-crw");
    reflexivity.
Defined.

(** A branch whose name holds a slash is not recognised as one: the
    segment before the last is not "tree", so "/tree" stays and
    "/master" is added. *)
Lemma convertURL_branch_with_slash_sample :
  convertURL hostOf "https://github.com/devfile/registry/tree/release/1.0"
  = ("https://raw.githubusercontent.com/devfile/registry/tree/release/1.0/master",
     None).
Proof. vm_compute. reflexivity. Qed.

Lemma convertURL_branch_of_tree_organisation_witness :
  convertURL hostOf "https://github.com/treehouse/registry/tree/main"
  = ("https://raw.githubusercontent.comhouse/registry/tree/main", None).
Proof.
  apply (convertURL_branch_of_tree_organisation hostOf "house" "registry" "main");
    reflexivity.
Defined.

End ConvertURLExtras.

(** ** Reading the stacks of one registry *)

Module GetRegistryStacksExtras.
Import GoError Util GoStrings registry registryIndex RegistryWarnings.
Import RegistryIndexExamples.
Import TaskRunnerFacts RegistryFacts RegistryListing RegistryExtras.

Lemma createRegistryDevfiles_registry (registry : Registry)
    (devfileIndex : list Schema) :
  Forall (λ stack, stack_Registry stack = registry)
    (createRegistryDevfiles registry devfileIndex).1.
Proof.
  unfold createRegistryDevfiles. simpl.
  induction devfileIndex as [|e rest IH]; simpl; [constructor|].
  rewrite createRegistryDevfiles_loop_app. simpl. by constructor.
Qed.

Section GetRegistryStacks.
Context {W : Type}.
Variable url_Parse_Host : string → string * option error.
Variable GetRegistryIndex : string → W → W * (list Schema * option error).
Variable IsSecure : string → bool.
Variable keyring_Get : string → string → string * option error.
Variable CredentialPrefix : string.
Variable RegistryUser : string.
Variable HTTPGetRequest : HTTPRequestParams → Z → W → W * (string * option error).
Variable GetRegistryCacheTime : Z.
Variable json_Unmarshal : string → list Schema → list Schema * option error.
Variable CleanDefaultHTTPCacheDir : W → W * option error.
Variable log_Warning : string → W → W.

Abbreviation getStacks :=
  (getRegistryStacks url_Parse_Host GetRegistryIndex IsSecure keyring_Get
     CredentialPrefix RegistryUser HTTPGetRequest GetRegistryCacheTime
     json_Unmarshal CleanDefaultHTTPCacheDir log_Warning).

Lemma getRegistryStacks_shape (registry : Registry) (w : W) :
  match (getStacks registry w).2.2 with
  | Some _ => (getStacks registry w).2.1 = []
  | None =>
      Forall (λ stack,
                stack_Registry stack = taggedRegistry url_Parse_Host registry)
        (getStacks registry w).2.1
  end.
Proof.
  unfold getRegistryStacks, taggedRegistry.
  destruct (Contains (URL registry) "github"); simpl.
  - destruct (convertURL url_Parse_Host (URL registry)) as [URL' [err|]];
      simpl; [done|].
    destruct (IsSecure (Name registry)).
    + destruct (keyring_Get _ _) as [token [e|]]; simpl; [done|].
      destruct (HTTPGetRequest _ _ w) as [w1 [jsonBytes [err|]]]; simpl; [done|].
      destruct (json_Unmarshal jsonBytes _) as [devfileIndex [err|]]; simpl;
        [|apply createRegistryDevfiles_registry].
      destruct (CleanDefaultHTTPCacheDir w1) as [w2 cleanErr].
      destruct (HTTPGetRequest _ _ _) as [w3 [jsonBytes' [err'|]]]; simpl; [done|].
      destruct (json_Unmarshal jsonBytes' _) as [devfileIndex' [err'|]]; simpl;
        [done|apply createRegistryDevfiles_registry].
    + destruct (HTTPGetRequest _ _ w) as [w1 [jsonBytes [err|]]]; simpl; [done|].
      destruct (json_Unmarshal jsonBytes _) as [devfileIndex [err|]]; simpl;
        [|apply createRegistryDevfiles_registry].
      destruct (CleanDefaultHTTPCacheDir w1) as [w2 cleanErr].
      destruct (HTTPGetRequest _ _ _) as [w3 [jsonBytes' [err'|]]]; simpl; [done|].
      destruct (json_Unmarshal jsonBytes' _) as [devfileIndex' [err'|]]; simpl;
        [done|apply createRegistryDevfiles_registry].
  - destruct (GetRegistryIndex (URL registry) w) as [w1 [devfileIndex [err|]]];
      simpl; [done|apply createRegistryDevfiles_registry].
Qed.

(** X15.  [getRegistryStacks] returns either an error and no stack, or
    stacks and no error; every stack it returns is tagged with the
    registry it was asked for, whose URL is the converted one when the
    registry is a GitHub registry and the configured one otherwise. *)
Theorem getRegistryStacks_tags_every_stack (registry : Registry) (w : W) :
  (is_Some (getStacks registry w).2.2 → (getStacks registry w).2.1 = []) ∧
  ∀ stack, stack ∈ (getStacks registry w).2.1 →
    (getStacks registry w).2.2 = None ∧
    Name (stack_Registry stack) = Name registry ∧
    Secure (stack_Registry stack) = Secure registry ∧
    URL (stack_Registry stack) =
      if Contains (URL registry) "github"
      then (convertURL url_Parse_Host (URL registry)).1
      else URL registry.
Proof.
  pose proof (getRegistryStacks_shape registry w) as Hshape.
  destruct (getStacks registry w).2.2 as [err|].
  - split; [done|]. intros stack Hin. rewrite Hshape in Hin.
    by apply elem_of_nil in Hin.
  - split; [by intros [? ?]|]. intros stack Hin.
    rewrite Forall_forall in Hshape. rewrite (Hshape stack Hin).
    unfold taggedRegistry. by destruct (Contains (URL registry) "github").
Qed.

(** X16.  For a secure GitHub registry whose credential cannot be read
    from the keyring, [getRegistryStacks] fails with the keyring's error,
    wrapped, before any download: the world is left as it was. *)
Theorem getRegistryStacks_secure_without_credential (registry : Registry)
    (w : W) (URL' token : string) (e : error) :
  Contains (URL registry) "github" = true →
  convertURL url_Parse_Host (URL registry) = (URL', None) →
  IsSecure (Name registry) = true →
  keyring_Get (CredentialPrefix +:+ Name registry) RegistryUser = (token, Some e) →
  getStacks registry w =
  (w, ([], Some (wrapError
                   ("unable to get secure registry credential from keyring: "
                      +:+ Error e) e))).
Proof.
  intros Hgithub Hconvert Hsecure Hkeyring.
  unfold getRegistryStacks. rewrite Hgithub, Hconvert. simpl.
  by rewrite Hsecure, Hkeyring.
Qed.

End GetRegistryStacks.

Section Static.

Variable url_Parse_Host : string → string * option error.
Variable GetRegistryIndex : string → unit → unit * (list Schema * option error).
Variable IsSecure : string → bool.
Variable keyring_Get : string → string → string * option error.
Variable CredentialPrefix : string.
Variable RegistryUser : string.
Variable HTTPGetRequest :
  HTTPRequestParams → Z → unit → unit * (string * option error).
Variable GetRegistryCacheTime : Z.
Variable json_Unmarshal : string → list Schema → list Schema * option error.
Variable CleanDefaultHTTPCacheDir : unit → unit * option error.
Variable log_Warning : string → unit → unit.

Abbreviation static :=
  (staticStacks url_Parse_Host GetRegistryIndex IsSecure keyring_Get
     CredentialPrefix RegistryUser HTTPGetRequest GetRegistryCacheTime
     json_Unmarshal CleanDefaultHTTPCacheDir log_Warning).

(** X17.  When [ListDevfileStacks] reads the registries with
    [getRegistryStacks], every stack it lists is tagged with one of the
    registries it lists, under that registry's name; the URL in the tag
    is the converted one for a GitHub registry, so it differs from the
    URL of the listed registry whenever the conversion changes it. *)
Theorem ListDevfileStacks_items_tagged_with_listed_registries
    (o : RegistryClient) (registryName : string) (choices : list nat)
    (out : list string) :
  ∃ lst out',
    ListDevfileStacks static o registryName choices out
      = Normal (lst, None, out') ∧
    ∀ item, item ∈ Items lst →
      ∃ reg, reg ∈ DevfileRegistries lst ∧
             stack_Registry item = taggedRegistry url_Parse_Host reg.
Proof.
  eexists _, _. split; [apply ListDevfileStacks_printed|]. simpl.
  intros item Hin.
  apply list_elem_of_In, in_concat in Hin as (stacks & Hstacks & Hitem).
  apply list_elem_of_In, list_elem_of_fmap in Hstacks as (reg & -> & Hreg).
  apply list_elem_of_In in Hitem.
  exists reg. split; [done|].
  pose proof (getRegistryStacks_shape url_Parse_Host GetRegistryIndex IsSecure
                keyring_Get CredentialPrefix RegistryUser HTTPGetRequest
                GetRegistryCacheTime json_Unmarshal CleanDefaultHTTPCacheDir
                log_Warning reg tt) as Hshape.
  unfold stacksOf in Hitem. unfold staticStacks in Hitem.
  destruct (getRegistryStacks _ _ _ _ _ _ _ _ _ _ _ reg tt).2
    as [stacks [err|]]; simpl in *.
  - by apply elem_of_nil in Hitem.
  - rewrite Forall_forall in Hshape. by apply Hshape.
Qed.

End Static.

Lemma getRegistryStacks_secure_without_credential_witness :
  getRegistryStacks hostOf noIndex (λ _, true) emptyKeyring "odo-devfile-registry-"
    "default" noDownload 4 noJSON cleanCache logNothing secureRegistry tt
  = (tt, ([], Some (wrapError
                      ("unable to get secure registry credential from keyring: "
                         +:+ "secret not found in keyring")
                      (errorString "secret not found in keyring")))).
Proof.
  apply (getRegistryStacks_secure_without_credential hostOf noIndex (λ _, true)
           emptyKeyring "odo-devfile-registry-" "default" noDownload 4%Z noJSON
           cleanCache logNothing secureRegistry tt
           "https://raw.githubusercontent.com/devfile/registry/master" ""
           (errorString "secret not found in keyring"));
    reflexivity.
Defined.

End GetRegistryStacksExtras.
